(** * dns-caddy: public-IP resolution and DNS record reconciliation

    A shallow embedding of [main.go]: the per-endpoint fetch [fetchIP], the
    concurrent resolver [getPublicIP] (goroutines, a buffered channel and the
    receiving loop, as an interleaving step relation) and the reconciliation
    part of [main] (as a program in a small trace-and-exit monad over the
    Cloudflare client calls). *)

From Stdlib Require Import List String Ascii NArith ZArith Bool Arith Lia.
From Stdlib Require Import Permutation Relations DecimalString.
Import ListNotations.

Set Implicit Arguments.

Local Open Scope string_scope.

(** ** Go values *)

(** A Go [error] is an opaque value carrying a message; [None] is [nil]. *)
Definition error := string.

(** Go strings are sequences of bytes. *)
Definition bytes := list ascii.

Module Unicode.

(** [unicode.IsSpace]: the Latin-1 white space characters, then the
    [White_Space] property for the rest. *)
Definition IsSpace (r : N) : bool :=
  if (r <=? 255)%N then
    match r with
    | 9 | 10 | 11 | 12 | 13 | 32 | 133 | 160 => true
    | _ => false
    end%N
  else
    ((r =? 0x1680) || ((0x2000 <=? r) && (r <=? 0x200a)) || (r =? 0x2028)
     || (r =? 0x2029) || (r =? 0x202f) || (r =? 0x205f) || (r =? 0x3000))%N.

Definition byte (c : ascii) : N := N_of_ascii c.

Definition between (lo hi x : N) : bool := ((lo <=? x) && (x <=? hi))%N.

(** One-byte (ASCII) code point. *)
Definition rune1 (c0 : ascii) : option N :=
  if (byte c0 <? 128)%N then Some (byte c0) else None.

(** Well-formed two-byte UTF-8 sequence and the code point it encodes. *)
Definition rune2 (c0 c1 : ascii) : option N :=
  if between 0xC2 0xDF (byte c0) && between 0x80 0xBF (byte c1) then
    Some (N.lor (N.shiftl (N.land (byte c0) 0x1F) 6) (N.land (byte c1) 0x3F))
  else None.

(** Well-formed three-byte UTF-8 sequence: the second byte's range depends
    on the first (no overlong forms, no surrogates). *)
Definition rune3 (c0 c1 c2 : ascii) : option N :=
  let lo := if (byte c0 =? 0xE0)%N then 0xA0%N else 0x80%N in
  let hi := if (byte c0 =? 0xED)%N then 0x9F%N else 0xBF%N in
  if between 0xE0 0xEF (byte c0) && between lo hi (byte c1)
     && between 0x80 0xBF (byte c2) then
    Some (N.lor (N.shiftl (N.land (byte c0) 0x0F) 12)
            (N.lor (N.shiftl (N.land (byte c1) 0x3F) 6)
                   (N.land (byte c2) 0x3F)))
  else None.

Definition space (r : option N) : bool :=
  match r with Some r => IsSpace r | None => false end.

End Unicode.

Module Strings.
Import Unicode.

(** Drops from the front of [s] every white space code point, where
    [sp1], [sp2] and [sp3] recognise one encoded in one, two and three
    bytes (no white space code point takes four). *)
Fixpoint trimFront (sp1 : ascii -> bool) (sp2 : ascii -> ascii -> bool)
  (sp3 : ascii -> ascii -> ascii -> bool) (s : bytes) : bytes :=
  match s with
  | [] => []
  | c0 :: t0 =>
      if sp1 c0 then trimFront sp1 sp2 sp3 t0 else
      match t0 with
      | [] => s
      | c1 :: t1 =>
          if sp2 c0 c1 then trimFront sp1 sp2 sp3 t1 else
          match t1 with
          | [] => s
          | c2 :: t2 =>
              if sp3 c0 c1 c2 then trimFront sp1 sp2 sp3 t2 else s
          end
      end
  end.

Definition TrimLeftSpace (s : bytes) : bytes :=
  trimFront (fun a => space (rune1 a)) (fun a b => space (rune2 a b))
            (fun a b c => space (rune3 a b c)) s.

(** From the back the same code points are met last byte first. *)
Definition TrimRightSpace (s : bytes) : bytes :=
  rev (trimFront (fun a => space (rune1 a)) (fun b a => space (rune2 a b))
                 (fun c b a => space (rune3 a b c)) (rev s)).

(** [strings.TrimSpace]: [s] without its leading and trailing white
    space, as defined by Unicode, on the UTF-8 bytes of [s]. *)
Definition TrimSpace (s : string) : string :=
  string_of_list_ascii
    (TrimRightSpace (TrimLeftSpace (list_ascii_of_string s))).

End Strings.

(** ** The HTTP exchange of one endpoint query *)

(** What [io.ReadAll(resp.Body)] returns. *)
Record Response := {
  StatusCode : Z;
  ReadAll : string * option error
}.

(** What happens when one service is queried under the shared context:
    building the request fails, [http.DefaultClient.Do] fails (connection
    error, deadline exceeded), or a response arrives. *)
Inductive exchange :=
| NewRequestErr (e : error)
| DoErr (e : error)
| Responds (resp : Response).

(** The network as [getPublicIP] meets it in one run. *)
Definition Net := string -> exchange.

(** ** fetchIP *)

Definition fetchIP (net : Net) (url : string) : string * option error :=
  match net url with
  | NewRequestErr e => ("", Some e)
  | DoErr e => ("", Some e)
  | Responds resp =>
      match ReadAll resp with
      | (_, Some e) => ("", Some e)
      | (body, None) =>
          let ip := Strings.TrimSpace body in
          if String.eqb ip "" then
            ("", Some ("received empty IP address from " ++ url))
          else (ip, None)
      end
  end.

(** ** getPublicIP *)

Definition checkip : string := "https://checkip.amazonaws.com".
Definition icanhazip : string := "https://icanhazip.com".

Definition services : list string := [checkip; icanhazip].

(** The value a goroutine puts on the channel. *)
Record result := { ip : string; err : option error }.

Definition fetched (net : Net) (service : string) : result :=
  let (ip, err) := fetchIP net service in {| ip := ip; err := err |}.

Definition mismatch_warning (a b : string) : string :=
  "Warning: IP mismatch between services: " ++ a ++ " vs " ++ b
  ++ ". Using " ++ a.

(** The end of [getPublicIP], once the receiving loop is over: what is
    logged and what is returned. *)
Definition decide (ips : list string)
  : list string * (string * option error) :=
  if (List.length ips =? 0)%nat then
    ([], ("", Some "failed to fetch public IP from all services"))
  else
    (if (1 <? List.length ips)%nat
        && negb (String.eqb (nth 0 ips "") (nth 1 ips ""))
     then [mismatch_warning (nth 0 ips "") (nth 1 ips "")] else [],
     (nth 0 ips "", None)).

(** One iteration of the receiving loop. *)
Definition receive (ips : list string) (res : result) : list string :=
  match err res with
  | None => (ips ++ [ip res])%list
  | Some _ => ips
  end.

(** The receiving loop over values taken off the channel in this order. *)
Definition collect (arrived : list result) : list string :=
  fold_left receive arrived [].

(** [getPublicIP] when the goroutines' values reach the channel in the
    order [arrival] of their services. *)
Definition getPublicIP_arriving (net : Net) (arrival : list string)
  : list string * (string * option error) :=
  decide (collect (map (fetched net) arrival)).

(** The state of one call of [getPublicIP]. *)
Record state := {
  spawning : list string;  (* services the first loop has yet to range over *)
  running : list string;   (* goroutines started that have not sent yet *)
  results : list result;   (* the buffered channel, oldest value first *)
  pending : nat;           (* iterations the receiving loop has yet to run *)
  ips : list string;
  received : list result;  (* history: the values taken off the channel *)
  logged : list string;
  returned : option (string * option error)
}.

Definition init (svcs : list string) : state :=
  {| spawning := svcs; running := []; results := [];
     pending := List.length svcs;
     ips := []; received := []; logged := []; returned := None |}.

(** The interleavings of the main goroutine with the fetching goroutines:
    the first loop starts a goroutine ([step_go]); a goroutine fetches and
    sends its value ([step_send]: what it fetches is fixed by the network,
    so fetching and sending are one step); once the first loop is over the
    second loop receives ([step_receive]) and, its iterations done, the
    function decides and returns ([step_return]). The channel holds at most
    [len(services)] values; a send on a full channel and a receive on an
    empty one block. *)
Inductive step (net : Net) (svcs : list string) : state -> state -> Prop :=
| step_go service rest run ch n l got :
    step net svcs
      {| spawning := service :: rest; running := run; results := ch;
         pending := n; ips := l; received := got; logged := [];
         returned := None |}
      {| spawning := rest; running := (run ++ [service])%list; results := ch;
         pending := n; ips := l; received := got; logged := [];
         returned := None |}
| step_send sp before service after ch n l got lg ret :
    List.length ch < List.length svcs ->
    step net svcs
      {| spawning := sp; running := (before ++ service :: after)%list;
         results := ch; pending := n; ips := l; received := got; logged := lg;
         returned := ret |}
      {| spawning := sp; running := (before ++ after)%list;
         results := (ch ++ [fetched net service])%list;
         pending := n; ips := l; received := got; logged := lg;
         returned := ret |}
| step_receive run res ch n l got :
    step net svcs
      {| spawning := []; running := run; results := res :: ch;
         pending := S n; ips := l; received := got; logged := [];
         returned := None |}
      {| spawning := []; running := run; results := ch;
         pending := n; ips := receive l res; received := (got ++ [res])%list;
         logged := []; returned := None |}
| step_return run ch l got :
    step net svcs
      {| spawning := []; running := run; results := ch;
         pending := 0; ips := l; received := got; logged := [];
         returned := None |}
      {| spawning := []; running := run; results := ch;
         pending := 0; ips := l; received := got; logged := fst (decide l);
         returned := Some (snd (decide l)) |}.

Definition steps (net : Net) (svcs : list string) : state -> state -> Prop :=
  clos_refl_trans_1n state (step net svcs).

Definition reachable (net : Net) (svcs : list string) (s : state) : Prop :=
  steps net svcs (init svcs) s.

(** [getPublicIP] logs [fst out] and returns [snd out] in some interleaving. *)
Definition getPublicIP (net : Net)
  (out : list string * (string * option error)) : Prop :=
  exists s, reachable net services s
            /\ returned s = Some (snd out) /\ logged s = fst out.

(** Strictly decreases along every step. *)
Definition budget (s : state) : nat :=
  4 * List.length (spawning s) + 3 * List.length (running s)
  + 2 * List.length (results s)
  + match returned s with None => 1 | Some _ => 0 end.

(** What holds of every state a call of [getPublicIP] goes through: each
    service's value is in exactly one place (received, on the channel, or
    still to be sent by its goroutine), [ips] is the receiving loop run on
    the values received so far, and a return value comes from [decide]. *)
Definition inv (net : Net) (svcs : list string) (s : state) : Prop :=
  Permutation (map (fetched net) svcs)
    (received s ++ results s ++ map (fetched net) (running s ++ spawning s))%list
  /\ ips s = collect (received s)
  /\ pending s + List.length (received s) = List.length svcs
  /\ match returned s with
     | Some r => pending s = 0 /\ spawning s = []
                 /\ r = snd (decide (ips s)) /\ logged s = fst (decide (ips s))
     | None => logged s = []
     end.

(** ** The Cloudflare client, as [main] uses it *)

Inductive RouteLevel := AccountRouteLevel | ZoneRouteLevel | UserRouteLevel.

Record ResourceContainer := { Level : RouteLevel; Identifier : string }.

Module DNSRecord.
Record t := {
  ID : string; Type' : string; Name : string; Content : string;
  Proxiable : bool; Proxied : option bool; TTL : Z
}.
(** The zero value, which indexing never yields under [main]'s guard. *)
Definition zero : t :=
  {| ID := ""; Type' := ""; Name := ""; Content := ""; Proxiable := false;
     Proxied := None; TTL := 0 |}.
Definition with_Content (r : t) (c : string) : t :=
  {| ID := ID r; Type' := Type' r; Name := Name r; Content := c;
     Proxiable := Proxiable r; Proxied := Proxied r; TTL := TTL r |}.
End DNSRecord.

Module ListDNSRecordsParams.
Record t := { Type' : string; Name : string }.
End ListDNSRecordsParams.

Module UpdateDNSRecordParams.
Record t := {
  Type' : string; Name : string; Content : string; ID : string;
  TTL : Z; Proxied : option bool
}.
End UpdateDNSRecordParams.

Record ResultInfo := { Total : Z }.

(** The answers of the provider in one run. *)
Record Cloudflare := {
  NewWithAPIToken : string -> option error;
  ZoneIDByName : string -> string * option error;
  ListDNSRecords : ResourceContainer -> ListDNSRecordsParams.t ->
                   list DNSRecord.t * ResultInfo * option error;
  UpdateDNSRecord : ResourceContainer -> UpdateDNSRecordParams.t ->
                    DNSRecord.t * option error
}.

(** The global variables set by [init]. *)
Record Config := { apiToken : string; zoneName : string; recordName : string }.

(** ** Programs that call out, print and may end the process *)

Inductive event :=
| CallNewWithAPIToken (token : string)
| CallZoneIDByName (zone : string)
| CallGetPublicIP
| CallListDNSRecords (rc : ResourceContainer) (p : ListDNSRecordsParams.t)
| CallUpdateDNSRecord (rc : ResourceContainer) (p : UpdateDNSRecordParams.t)
| Print (text : string)
| Log (text : string)
| LogFatal (text : string).

(** How a piece of [main] ends: it falls through to the next statement,
    executes [return], or the process exits with a status. *)
Inductive flow (A : Type) :=
| Next (a : A)
| Return
| Exit (code : Z).
Arguments Return {A}.
Arguments Exit {A} code.

Definition M (A : Type) : Type := list event -> list event * flow A.

Definition ret {A} (a : A) : M A := fun t => (t, Next a).

Definition bind {A B} (m : M A) (k : A -> M B) : M B :=
  fun t =>
    match m t with
    | (t', Next a) => k a t'
    | (t', Return) => (t', Return)
    | (t', Exit c) => (t', Exit c)
    end.

Notation "x <- m ;; k" := (bind m (fun x => k))
  (at level 61, m at next level, right associativity).
Notation "' p <- m ;; k" := (bind m (fun p => k))
  (at level 61, p strict pattern, m at next level, right associativity).
Notation "m ;; k" := (bind m (fun _ => k))
  (at level 61, right associativity).

Definition emit (e : event) : M unit := fun t => ((t ++ [e])%list, Next tt).

Definition call {A} (e : event) (answer : A) : M A := emit e ;; ret answer.

Definition Printf (text : string) : M unit := emit (Print text).

(** [log.Fatalf]: the message, then [os.Exit(1)]. *)
Definition Fatalf {A} (text : string) : M A :=
  fun t => ((t ++ [LogFatal text])%list, Exit 1).

Definition return' {A} : M A := fun t => (t, Return).

Fixpoint emit_all (es : list event) : M unit :=
  match es with
  | [] => ret tt
  | e :: es => emit e ;; emit_all es
  end.

(** [if err != nil { log.Fatalf(...) }] *)
Definition fatal_on (err : option error) (text : error -> string) : M unit :=
  match err with
  | Some e => Fatalf (text e)
  | None => ret tt
  end.

Definition nl : string := String (ascii_of_nat 10) "".

(** The verb [%d]. *)
Definition decimal (z : Z) : string :=
  DecimalString.NilZero.string_of_int (Z.to_int z).

(** ** main *)

(** The end of [main], from the test on [len(records)] on. *)
Definition reconcile (cfg : Config) (cf : Cloudflare)
  (zone : ResourceContainer) (ip : string) (records : list DNSRecord.t)
  : M unit :=
  (if (0 <? List.length records)%nat then
     let record := nth 0 records DNSRecord.zero in
     (if String.eqb (DNSRecord.Content record) ip then
        Printf ("DNS record already up-to-date for " ++ recordName cfg
                ++ ": " ++ ip ++ nl) ;;
        return'
      else ret tt) ;;
     let record := DNSRecord.with_Content record ip in
     let params :=
       {| UpdateDNSRecordParams.Type' := DNSRecord.Type' record;
          UpdateDNSRecordParams.Name := DNSRecord.Name record;
          UpdateDNSRecordParams.Content := DNSRecord.Content record;
          UpdateDNSRecordParams.ID := "";
          UpdateDNSRecordParams.TTL := DNSRecord.TTL record;
          UpdateDNSRecordParams.Proxied := DNSRecord.Proxied record |} in
     '(record, err) <- call (CallUpdateDNSRecord zone params)
                            (UpdateDNSRecord cf zone params) ;;
     fatal_on err (fun e => "Error updating DNS record: " ++ e) ;;
     Printf ("Successfully updated DNS record for " ++ recordName cfg
             ++ " to " ++ ip ++ nl)
   else
     Fatalf ("No A records found for " ++ recordName cfg)) ;;
  (if (List.length records =? 0)%nat then
     Fatalf ("No A records found for " ++ recordName cfg)
   else ret tt) ;;
  Printf ("Successfully updated DNS record for " ++ recordName cfg
          ++ " to " ++ ip ++ nl).

Definition list_params (cfg : Config) : ListDNSRecordsParams.t :=
  {| ListDNSRecordsParams.Name := recordName cfg;
     ListDNSRecordsParams.Type' := "A" |}.

(** [resolved] is what the call of [getPublicIP] logs and returns. *)
Definition main (cfg : Config) (cf : Cloudflare)
  (resolved : list string * (string * option error)) : M unit :=
  err <- call (CallNewWithAPIToken (apiToken cfg))
              (NewWithAPIToken cf (apiToken cfg)) ;;
  fatal_on err (fun e => "Error initializing Cloudflare API: " ++ e) ;;
  '(zoneID, err) <- call (CallZoneIDByName (zoneName cfg))
                         (ZoneIDByName cf (zoneName cfg)) ;;
  fatal_on err (fun e =>
    "Error fetching Zone ID for " ++ zoneName cfg ++ ": " ++ e) ;;
  let zone := {| Level := ZoneRouteLevel; Identifier := zoneID |} in
  '(ip, err) <- (emit CallGetPublicIP ;;
                 emit_all (map Log (fst resolved)) ;;
                 ret (snd resolved)) ;;
  fatal_on err (fun e => "Error fetching public IP: " ++ e) ;;
  Printf ("Your IP address is  " ++ ip ++ nl) ;;
  '(records, resultInfo, err) <- call (CallListDNSRecords zone (list_params cfg))
                                      (ListDNSRecords cf zone (list_params cfg)) ;;
  fatal_on err (fun e => "Error fetching DNS records: " ++ e) ;;
  Printf ("Total records found: " ++ decimal (Total resultInfo) ++ nl) ;;
  reconcile cfg cf zone ip records.

(** The parameters of the update call for [record] and the message of
    each ending, as [main] builds them. *)
Definition update_params (record : DNSRecord.t) (ip : string)
  : UpdateDNSRecordParams.t :=
  {| UpdateDNSRecordParams.Type' := DNSRecord.Type' record;
     UpdateDNSRecordParams.Name := DNSRecord.Name record;
     UpdateDNSRecordParams.Content := ip;
     UpdateDNSRecordParams.ID := "";
     UpdateDNSRecordParams.TTL := DNSRecord.TTL record;
     UpdateDNSRecordParams.Proxied := DNSRecord.Proxied record |}.

Definition updated_message (cfg : Config) (ip : string) : string :=
  "Successfully updated DNS record for " ++ recordName cfg ++ " to " ++ ip
  ++ nl.

Definition up_to_date_message (cfg : Config) (ip : string) : string :=
  "DNS record already up-to-date for " ++ recordName cfg ++ ": " ++ ip ++ nl.

Definition zone_of (zoneID : string) : ResourceContainer :=
  {| Level := ZoneRouteLevel; Identifier := zoneID |}.

(** What [main] has done when it comes to the test on [len(records)], all
    calls before having succeeded. *)
Definition preamble (cfg : Config) (zoneID : string)
  (resolved : list string * (string * option error)) (info : ResultInfo)
  : list event :=
  ([CallNewWithAPIToken (apiToken cfg); CallZoneIDByName (zoneName cfg);
    CallGetPublicIP]
   ++ map Log (fst resolved)
   ++ [Print ("Your IP address is  " ++ fst (snd resolved) ++ nl);
       CallListDNSRecords (zone_of zoneID) (list_params cfg);
       Print ("Total records found: " ++ decimal (Total info) ++ nl)])%list.

(** One run of the program: the events in order and how it ended. *)
Definition run (cfg : Config) (cf : Cloudflare) (net : Net)
  (out : list event * flow unit) : Prop :=
  exists resolved, getPublicIP net resolved /\ out = main cfg cf resolved [].

Definition is_update (e : event) : bool :=
  match e with CallUpdateDNSRecord _ _ => true | _ => false end.

Definition is_list (e : event) : bool :=
  match e with CallListDNSRecords _ _ => true | _ => false end.

(** The process ended with status 0. *)
Definition succeeded (f : flow unit) : bool :=
  match f with Exit _ => false | _ => true end.

(** ** Concrete inputs *)

(** A no-break space, in UTF-8. *)
Definition nbsp : string :=
  String (ascii_of_nat 194) (String (ascii_of_nat 160) "").

Definition respond (status : Z) (body : string) : exchange :=
  Responds {| StatusCode := status; ReadAll := (body, None) |}.

(** Both services answer, with different addresses. *)
Definition net_disagree : Net :=
  fun url =>
    if String.eqb url checkip then respond 200 ("203.0.113.5" ++ nl)
    else respond 200 ("203.0.113.9" ++ nl).

(** The first service answers 404 with an error page, the second is down. *)
Definition net_404 : Net :=
  fun url =>
    if String.eqb url checkip then respond 404 ("404 page not found" ++ nl)
    else DoErr "dial tcp: connection refused".

(** Both services are down. *)
Definition net_down : Net := fun _ => DoErr "context deadline exceeded".

(** Both services answer with white space only. *)
Definition net_blank : Net := fun _ => respond 200 (" " ++ nl).

(** Only the second service answers. *)
Definition net_second : Net :=
  fun url =>
    if String.eqb url checkip then DoErr "context deadline exceeded"
    else respond 200 ("203.0.113.5" ++ nl).

(** The state in which [getPublicIP] returns under [net_disagree] when the
    second service's value reaches the channel first. *)
Definition returned_disagree : state :=
  {| spawning := []; running := []; results := []; pending := 0;
     ips := ["203.0.113.9"; "203.0.113.5"];
     received := [ {| ip := "203.0.113.9"; err := None |};
                   {| ip := "203.0.113.5"; err := None |} ];
     logged := [mismatch_warning "203.0.113.9" "203.0.113.5"];
     returned := Some ("203.0.113.9", None) |}.

Definition cfg0 : Config :=
  {| apiToken := "token"; zoneName := "example.com";
     recordName := "home.example.com" |}.

Definition record0 : DNSRecord.t :=
  {| DNSRecord.ID := "372e67954025e0ba6aaa6d586b9e0b59";
     DNSRecord.Type' := "A"; DNSRecord.Name := "home.example.com";
     DNSRecord.Content := "198.51.100.1"; DNSRecord.Proxiable := true;
     DNSRecord.Proxied := Some false; DNSRecord.TTL := 300 |}.

Definition record1 : DNSRecord.t :=
  {| DNSRecord.ID := "89c0ae3a2e1b4d2c9c0a3f5d1e7b6a42";
     DNSRecord.Type' := "A"; DNSRecord.Name := "home.example.com";
     DNSRecord.Content := "198.51.100.7"; DNSRecord.Proxiable := true;
     DNSRecord.Proxied := Some true; DNSRecord.TTL := 1 |}.

(** A provider where every call succeeds and two A records match. *)
Definition cf0 : Cloudflare :=
  {| NewWithAPIToken := fun _ => None;
     ZoneIDByName := fun _ => ("023e105f4ecef8ad9ca31a8372d0c353", None);
     ListDNSRecords := fun _ _ => ([record0; record1], {| Total := 2 |}, None);
     UpdateDNSRecord := fun _ _ => (DNSRecord.zero, None) |}.

Definition zone0 : string := "023e105f4ecef8ad9ca31a8372d0c353".

(** ** Reading a run of main *)

(** What [getPublicIP] returns when no service succeeded. *)
Definition all_failed : string * option error :=
  ("", Some "failed to fetch public IP from all services").

Definition is_call (e : event) : bool :=
  match e with
  | CallNewWithAPIToken _ | CallZoneIDByName _ | CallGetPublicIP
  | CallListDNSRecords _ _ | CallUpdateDNSRecord _ _ => true
  | _ => false
  end.

Definition is_fatal (e : event) : bool :=
  match e with LogFatal _ => true | _ => false end.

(** A printed line that starts as the message of a successful update. *)
Definition is_updated_print (e : event) : bool :=
  match e with
  | Print text => String.prefix "Successfully updated DNS record for " text
  | _ => false
  end.

(** The zone, the records listed and the first of them, as the provider
    answers in this run. *)
Definition zone_in (cfg : Config) (cf : Cloudflare) : ResourceContainer :=
  zone_of (fst (ZoneIDByName cf (zoneName cfg))).

Definition records_in (cfg : Config) (cf : Cloudflare) : list DNSRecord.t :=
  fst (fst (ListDNSRecords cf (zone_in cfg cf) (list_params cfg))).

Definition record_in (cfg : Config) (cf : Cloudflare) : DNSRecord.t :=
  nth 0 (records_in cfg cf) DNSRecord.zero.

(** The calls [main] makes when nothing stops it, in order. *)
Definition call_sequence (cfg : Config) (cf : Cloudflare)
  (resolved : list string * (string * option error)) : list event :=
  [CallNewWithAPIToken (apiToken cfg);
   CallZoneIDByName (zoneName cfg);
   CallGetPublicIP;
   CallListDNSRecords (zone_in cfg cf) (list_params cfg);
   CallUpdateDNSRecord (zone_in cfg cf)
     (update_params (record_in cfg cf) (fst (snd resolved)))].

Definition is_some {A} (o : option A) : bool :=
  match o with Some _ => true | None => false end.

(** How many of them it makes in this run. *)
Definition calls_made (cfg : Config) (cf : Cloudflare)
  (resolved : list string * (string * option error)) : nat :=
  if is_some (NewWithAPIToken cf (apiToken cfg)) then 1
  else if is_some (snd (ZoneIDByName cf (zoneName cfg))) then 2
  else if is_some (snd (snd resolved)) then 3
  else if is_some (snd (ListDNSRecords cf (zone_in cfg cf) (list_params cfg)))
          || (List.length (records_in cfg cf) =? 0)%nat
          || String.eqb (DNSRecord.Content (record_in cfg cf))
                        (fst (snd resolved))
       then 4
  else 5.

(** ** init: the configuration *)

(** [os.Exit]. *)
Definition exit {A} (code : Z) : M A := fun t => (t, Exit code).

(** [fmt.Println] of one text. *)
Definition Println (text : string) : M unit := Printf (text ++ nl).

(** [pflag.Parse] ends the process itself on a flag it does not know or on
    a request for help; [exits] is the status it exits with, if it does. *)
Definition parse (exits : option Z) : M unit :=
  match exits with
  | Some code => exit code
  | None => ret tt
  end.

(** The test on the three global variables that both variants of [init]
    make. *)
Definition require (apiToken zoneName recordName : string) : M unit :=
  if String.eqb apiToken "" || String.eqb zoneName ""
     || String.eqb recordName ""
  then
    Println "Missing required flags or environment variables:" ;;
    Println "CLOUDFLARE_API_TOKEN (or --api-token)" ;;
    Println "CLOUDFLARE_ZONE_NAME (or --zone-name)" ;;
    Println "CLOUDFLARE_RECORD_NAME (or --record-name)" ;;
    exit 1
  else ret tt.

Definition missing_lines : list event :=
  [Print ("Missing required flags or environment variables:" ++ nl);
   Print ("CLOUDFLARE_API_TOKEN (or --api-token)" ++ nl);
   Print ("CLOUDFLARE_ZONE_NAME (or --zone-name)" ++ nl);
   Print ("CLOUDFLARE_RECORD_NAME (or --record-name)" ++ nl)].

(** The variant of the program that is configured by flags and environment
    variables. *)
Module Flags.

(** What the process starts with: how [pflag.Parse] ends, what
    [viper.GetString] gives for a key once flags and environment are bound,
    [os.Args], and the text that [pflag.PrintDefaults] writes (to standard
    error). *)
Record Env := {
  Parse : option Z;
  GetString : string -> string;
  Args : list string;
  Defaults : string
}.

Definition init (env : Env) : M Config :=
  parse (Parse env) ;;
  let apiToken' := GetString env "api-token" in
  let zoneName' := GetString env "zone-name" in
  let recordName' := GetString env "record-name" in
  require apiToken' zoneName' recordName' ;;
  (if (List.length (Args env) <? 2)%nat then
     emit (Log (Defaults env)) ;;
     exit 0
   else ret tt) ;;
  ret {| apiToken := apiToken'; zoneName := zoneName';
         recordName := recordName' |}.

(** [init] runs before [main]. *)
Definition program (env : Env) (cf : Cloudflare)
  (resolved : list string * (string * option error)) : M unit :=
  cfg <- init env ;;
  main cfg cf resolved.

End Flags.

(** The variant of the program that is configured from a secret store. *)
Module Vault.

(** A value of type [interface{}] found in a secret. *)
Inductive value :=
| VString (s : string)
| VMap (m : list (string * value))
| VOther.

(** Indexing a map: the value under [key], if there is one. *)
Fixpoint lookup (key : string) (m : list (string * value)) : option value :=
  match m with
  | [] => None
  | (k, v) :: m => if String.eqb k key then Some v else lookup key m
  end.

Record Secret := { Data : list (string * value) }.

(** What the process starts with: how [pflag.Parse] ends, what
    [api.NewClient] returns for the configured address, and what reading a
    path returns. *)
Record Env := {
  Parse : option Z;
  NewClient : string -> option error;
  Read : string -> option Secret * option error
}.

Definition retrieveVaultSecret (env : Env) : M (string * string * string) :=
  fatal_on (NewClient env "http://10.43.80.26:8200")
    (fun e => "unable to initialize Vault client: " ++ e) ;;
  let '(secret, err) := Read env "/secret/data/cloudflare" in
  fatal_on err (fun e => "unable to read secret: " ++ e) ;;
  match secret with
  | None => Fatalf "no secret found at the specified path"
  | Some secret =>
      match lookup "data" (Data secret) with
      | Some (VMap secretData) =>
          match lookup "api-token" secretData with
          | Some (VString apiToken') =>
              match lookup "record-name" secretData with
              | Some (VString recordName') =>
                  match lookup "zone-name" secretData with
                  | Some (VString zoneName') =>
                      ret (apiToken', recordName', zoneName')
                  | _ =>
                      Fatalf
                        "zone-name not found or is not a string in the secret"
                  end
              | _ =>
                  Fatalf
                    "record-name not found or is not a string in the secret"
              end
          | _ => Fatalf "api-token not found or is not a string in the secret"
          end
      | _ => Fatalf "failed to parse secret data"
      end
  end.

Definition init (env : Env) : M Config :=
  parse (Parse env) ;;
  '(apiToken', recordName', zoneName') <- retrieveVaultSecret env ;;
  require apiToken' zoneName' recordName' ;;
  ret {| apiToken := apiToken'; zoneName := zoneName';
         recordName := recordName' |}.

Definition program (env : Env) (cf : Cloudflare)
  (resolved : list string * (string * option error)) : M unit :=
  cfg <- init env ;;
  main cfg cf resolved.

(** The secret as the program expects it. *)
Definition stored (apiToken' recordName' zoneName' : string)
  (env : Env) : Prop :=
  NewClient env "http://10.43.80.26:8200" = None
  /\ exists secret secretData,
       Read env "/secret/data/cloudflare" = (Some secret, None)
       /\ lookup "data" (Data secret) = Some (VMap secretData)
       /\ lookup "api-token" secretData = Some (VString apiToken')
       /\ lookup "record-name" secretData = Some (VString recordName')
       /\ lookup "zone-name" secretData = Some (VString zoneName').

End Vault.

(** ** White space, as Unicode defines it *)

(** The code points with the property [White_Space]. *)
Definition White_Space : list N :=
  [0x09; 0x0A; 0x0B; 0x0C; 0x0D; 0x20; 0x85; 0xA0; 0x1680;
   0x2000; 0x2001; 0x2002; 0x2003; 0x2004; 0x2005; 0x2006; 0x2007; 0x2008;
   0x2009; 0x200A; 0x2028; 0x2029; 0x202F; 0x205F; 0x3000]%N.

(** The UTF-8 encoding of a code point. *)
Definition utf8 (r : N) : bytes :=
  if (r <? 0x80)%N then [ascii_of_N r]
  else if (r <? 0x800)%N then
    [ascii_of_N (N.lor 0xC0 (N.shiftr r 6));
     ascii_of_N (N.lor 0x80 (N.land r 0x3F))]
  else if (r <? 0x10000)%N then
    [ascii_of_N (N.lor 0xE0 (N.shiftr r 12));
     ascii_of_N (N.lor 0x80 (N.land (N.shiftr r 6) 0x3F));
     ascii_of_N (N.lor 0x80 (N.land r 0x3F))]
  else
    [ascii_of_N (N.lor 0xF0 (N.shiftr r 18));
     ascii_of_N (N.lor 0x80 (N.land (N.shiftr r 12) 0x3F));
     ascii_of_N (N.lor 0x80 (N.land (N.shiftr r 6) 0x3F));
     ascii_of_N (N.lor 0x80 (N.land r 0x3F))].

(** [s] is made of white space only: it is the encoding of a sequence of
    white space code points. *)
Definition white (s : string) : Prop :=
  exists rs, Forall (fun r => In r White_Space) rs
             /\ list_ascii_of_string s = List.concat (map utf8 rs).

(** [s] starts, or ends, with the encoding of a white space code point. *)
Definition starts_white (s : string) : Prop :=
  exists r rest, In r White_Space
                 /\ list_ascii_of_string s = (utf8 r ++ rest)%list.

Definition ends_white (s : string) : Prop :=
  exists r rest, In r White_Space
                 /\ list_ascii_of_string s = (rest ++ utf8 r)%list.

(** The tests [trimFront] is run with, from the front and from the back. *)
Definition front1 (a : ascii) : bool := Unicode.space (Unicode.rune1 a).
Definition front2 (a b : ascii) : bool := Unicode.space (Unicode.rune2 a b).
Definition front3 (a b c : ascii) : bool :=
  Unicode.space (Unicode.rune3 a b c).
Definition back2 (b a : ascii) : bool := front2 a b.
Definition back3 (c b a : ascii) : bool := front3 a b c.

(** A text made of pieces that the tests accept. *)
Inductive spaced (sp1 : ascii -> bool) (sp2 : ascii -> ascii -> bool)
  (sp3 : ascii -> ascii -> ascii -> bool) : bytes -> Prop :=
| spaced_nil : spaced sp1 sp2 sp3 []
| spaced_1 c s :
    sp1 c = true -> spaced sp1 sp2 sp3 s -> spaced sp1 sp2 sp3 (c :: s)
| spaced_2 a b s :
    sp2 a b = true -> spaced sp1 sp2 sp3 s ->
    spaced sp1 sp2 sp3 (a :: b :: s)
| spaced_3 a b c s :
    sp3 a b c = true -> spaced sp1 sp2 sp3 s ->
    spaced sp1 sp2 sp3 (a :: b :: c :: s).

(** A text that starts with no piece that the tests accept. *)
Definition unfronted (sp1 : ascii -> bool) (sp2 : ascii -> ascii -> bool)
  (sp3 : ascii -> ascii -> ascii -> bool) (t : bytes) : Prop :=
  match t with
  | [] => True
  | c0 :: t0 =>
      sp1 c0 = false
      /\ match t0 with
         | [] => True
         | c1 :: t1 =>
             sp2 c0 c1 = false
             /\ match t1 with
                | [] => True
                | c2 :: _ => sp3 c0 c1 c2 = false
                end
         end
  end.

(** The bytes from [lo], [n] of them. *)
Definition bytes_from (lo n : nat) : bytes := map ascii_of_nat (seq lo n).

Definition same_bytes (x y : bytes) : bool :=
  if list_eq_dec ascii_dec x y then true else false.

(** A code point that is white space by [IsSpace] is in [White_Space], and
    the bytes it was decoded from are its encoding. *)
Definition accounted (r : option N) (encoded : bytes) : bool :=
  match r with
  | Some r =>
      implb (Unicode.IsSpace r)
        (existsb (N.eqb r) White_Space && same_bytes (utf8 r) encoded)
  | None => true
  end.

(** ** ASCII white space around a text *)

(** A byte that is an ASCII white space character. *)
Definition ascii_space (c : ascii) : bool := Unicode.space (Unicode.rune1 c).

(** An ASCII byte that is not white space. *)
Definition ascii_solid (c : ascii) : bool :=
  (Unicode.byte c <? 128)%N && negb (Unicode.IsSpace (Unicode.byte c)).

(** Every byte of [s] is ASCII white space. *)
Definition blank (s : string) : bool :=
  forallb ascii_space (list_ascii_of_string s).

(** [s] is not empty and its first and last bytes are ASCII and not white
    space, as an address in dotted decimal is. *)
Definition solid_ends (s : string) : bool :=
  match list_ascii_of_string s with
  | [] => false
  | c :: t => ascii_solid c && ascii_solid (last t c)
  end.

(** A provider where every call succeeds and no record matches. *)
Definition cf_empty : Cloudflare :=
  {| NewWithAPIToken := fun _ => None;
     ZoneIDByName := fun _ => (zone0, None);
     ListDNSRecords := fun _ _ => ([], {| Total := 0 |}, None);
     UpdateDNSRecord := fun _ _ => (DNSRecord.zero, None) |}.

(** The three values given, and the record name given as a flag. *)
Definition flags0 : Flags.Env :=
  {| Flags.Parse := None;
     Flags.GetString := fun key =>
       if String.eqb key "api-token" then "token"
       else if String.eqb key "zone-name" then "example.com"
       else "home.example.com";
     Flags.Args := ["dns-caddy"; "--record-name=home.example.com"];
     Flags.Defaults := "" |}.

(** A secret store that holds the three values. *)
Definition vault0 : Vault.Env :=
  {| Vault.Parse := None;
     Vault.NewClient := fun _ => None;
     Vault.Read := fun _ =>
       (Some {| Vault.Data :=
                  [("data",
                    Vault.VMap [("zone-name", Vault.VString "example.com");
                                ("api-token", Vault.VString "token");
                                ("record-name",
                                 Vault.VString "home.example.com")])] |},
        None) |}.

(** A secret store whose secret lacks the zone name. *)
Definition vault_partial : Vault.Env :=
  {| Vault.Parse := None;
     Vault.NewClient := fun _ => None;
     Vault.Read := fun _ =>
       (Some {| Vault.Data :=
                  [("data",
                    Vault.VMap [("api-token", Vault.VString "token");
                                ("record-name",
                                 Vault.VString "home.example.com")])] |},
        None) |}.

(** An em space, in UTF-8. *)
Definition emsp : string :=
  String (ascii_of_nat 226)
    (String (ascii_of_nat 128) (String (ascii_of_nat 131) "")).

(** The second service answers with white space of one, two and three
    bytes around the address. *)
Definition net_padded : Net :=
  fun _ => respond 200 (nbsp ++ " " ++ "203.0.113.9" ++ emsp ++ nl).

(** The state of a call under [net_disagree] when both goroutines are
    started and the second service's has sent: its value is on the channel
    and the first service's goroutine is still to send. *)
Definition one_sent : state :=
  {| spawning := []; running := [checkip];
     results := [ {| ip := "203.0.113.9"; err := None |} ]; pending := 2;
     ips := []; received := []; logged := []; returned := None |}.

(** A provider whose client refuses an update that names no record, as
    the client library does, with its error. *)
Definition cf_strict : Cloudflare :=
  {| NewWithAPIToken := fun _ => None;
     ZoneIDByName := fun _ => (zone0, None);
     ListDNSRecords := fun _ _ => ([record0; record1], {| Total := 2 |}, None);
     UpdateDNSRecord := fun _ p =>
       if String.eqb (UpdateDNSRecordParams.ID p) ""
       then (DNSRecord.zero, Some "required DNS record ID missing")
       else (DNSRecord.zero, None) |}.

(** ** TrimSpace on examples *)


Example TrimSpace_newline :
  Strings.TrimSpace ("203.0.113.5" ++ nl) = "203.0.113.5".
Proof. reflexivity. Qed.

Example TrimSpace_inner_kept :
  Strings.TrimSpace ("  a b" ++ nbsp ++ nl) = "a b".
Proof. vm_compute. reflexivity. Qed.

Example TrimSpace_blank : Strings.TrimSpace (" " ++ nl ++ nbsp) = "".
Proof. vm_compute. reflexivity. Qed.

(** ** TrimSpace keeps a piece of its argument *)

Lemma trimFront_suffix (sp1 : ascii -> bool) (sp2 : ascii -> ascii -> bool)
  (sp3 : ascii -> ascii -> ascii -> bool) (n : nat) :
  forall s : bytes, List.length s <= n ->
    exists pre, s = (pre ++ Strings.trimFront sp1 sp2 sp3 s)%list.
Proof.
  induction n as [|n IH]; intros s Hlen.
  - destruct s; [now exists [] | simpl in Hlen; lia].
  - destruct s as [|c0 t0]; [now exists []|]. simpl in Hlen |- *.
    destruct (sp1 c0).
    { destruct (IH t0 ltac:(lia)) as (pre & Hpre).
      exists (c0 :: pre). simpl. now rewrite <- Hpre. }
    destruct t0 as [|c1 t1]; [now exists []|]. simpl in Hlen.
    destruct (sp2 c0 c1).
    { destruct (IH t1 ltac:(lia)) as (pre & Hpre).
      exists (c0 :: c1 :: pre). simpl. now rewrite <- Hpre. }
    destruct t1 as [|c2 t2]; [now exists []|]. simpl in Hlen.
    destruct (sp3 c0 c1 c2); [|now exists []].
    destruct (IH t2 ltac:(lia)) as (pre & Hpre).
    exists (c0 :: c1 :: c2 :: pre). simpl. now rewrite <- Hpre.
Qed.

Lemma string_of_list_ascii_app (l1 l2 : bytes) :
  string_of_list_ascii (l1 ++ l2)
  = string_of_list_ascii l1 ++ string_of_list_ascii l2.
Proof. induction l1 as [|c l1 IH]; simpl; [reflexivity | now rewrite IH]. Qed.

(** The trimmed text is the argument without some of its first and some of
    its last bytes. *)
Lemma TrimSpace_infix (s : string) :
  exists pre suf, s = pre ++ Strings.TrimSpace s ++ suf.
Proof.
  unfold Strings.TrimSpace, Strings.TrimRightSpace, Strings.TrimLeftSpace.
  set (l := list_ascii_of_string s).
  destruct (@trimFront_suffix (fun a => Unicode.space (Unicode.rune1 a))
              (fun a b => Unicode.space (Unicode.rune2 a b))
              (fun a b c => Unicode.space (Unicode.rune3 a b c))
              (List.length l) l (le_n _)) as (pre & Hpre).
  set (m := Strings.trimFront _ _ _ l) in *.
  destruct (@trimFront_suffix (fun a => Unicode.space (Unicode.rune1 a))
              (fun b a => Unicode.space (Unicode.rune2 a b))
              (fun c b a => Unicode.space (Unicode.rune3 a b c))
              (List.length (rev m)) (rev m) (le_n _)) as (suf & Hsuf).
  set (k := Strings.trimFront _ _ _ (rev m)) in *.
  exists (string_of_list_ascii pre), (string_of_list_ascii (rev suf)).
  rewrite <- !string_of_list_ascii_app.
  rewrite <- (string_of_list_ascii_of_string s). fold l. f_equal.
  rewrite Hpre at 1. f_equal.
  rewrite <- rev_app_distr, <- Hsuf. symmetry. apply rev_involutive.
Qed.

(** ** The resolver's interleavings *)

Section Resolver.

Variable net : Net.
Variable svcs : list string.

Lemma collect_snoc (got : list result) (res : result) :
  collect (got ++ [res]) = receive (collect got) res.
Proof. unfold collect. now rewrite fold_left_app. Qed.

Lemma inv_init : inv net svcs (init svcs).
Proof.
  unfold inv, init; simpl. repeat split; auto.
Qed.

Lemma inv_step (s s' : state) :
  inv net svcs s -> step net svcs s s' -> inv net svcs s'.
Proof.
  intros (Hperm & Hips & Hlen & Hret) Hstep.
  destruct Hstep; unfold inv in *; simpl in *.
  - repeat split; auto. now rewrite <- app_assoc.
  - repeat split; auto.
    rewrite Hperm. apply Permutation_app_head.
    rewrite <- !app_assoc, !map_app. simpl.
    apply Permutation_app_head.
    symmetry. apply Permutation_middle.
  - repeat split; auto.
    + now rewrite <- app_assoc.
    + rewrite collect_snoc. now f_equal.
    + rewrite length_app. simpl. lia.
  - repeat split; auto.
Qed.

Lemma inv_steps (s s' : state) :
  inv net svcs s -> steps net svcs s s' -> inv net svcs s'.
Proof.
  intros Hinv Hsteps. induction Hsteps; eauto using inv_step.
Qed.

Lemma inv_reachable (s : state) : reachable net svcs s -> inv net svcs s.
Proof. intros H. exact (inv_steps inv_init H). Qed.

(** When the loop has run all its iterations nothing is left anywhere but
    in the received values. *)
Lemma inv_drained (s : state) :
  inv net svcs s -> pending s = 0 ->
  Permutation (map (fetched net) svcs) (received s)
  /\ results s = [] /\ running s = [] /\ spawning s = [].
Proof.
  intros (Hperm & _ & Hlen & _) H0.
  pose proof (Permutation_length Hperm) as Hl.
  rewrite length_map, !length_app, length_map, length_app in Hl.
  assert (List.length (results s) = 0) as Hres by lia.
  assert (List.length (running s) = 0) as Hrun by lia.
  assert (List.length (spawning s) = 0) as Hsp by lia.
  apply length_zero_iff_nil in Hres, Hrun, Hsp.
  rewrite Hres, Hrun, Hsp in Hperm. simpl in Hperm.
  rewrite app_nil_r in Hperm. auto.
Qed.

(** Every return of the resolver is the decision on the values of all the
    services, taken in some order of arrival. *)
Lemma returned_arriving (s : state) (r : string * option error) :
  reachable net svcs s -> returned s = Some r ->
  exists arrival,
    Permutation svcs arrival
    /\ received s = map (fetched net) arrival
    /\ (logged s, r) = getPublicIP_arriving net arrival.
Proof.
  intros Hreach Hret. pose proof (inv_reachable Hreach) as Hinv.
  pose proof Hinv as (_ & Hips & _ & Hr). rewrite Hret in Hr.
  destruct Hr as (H0 & _ & Hr & Hlog).
  destruct (inv_drained Hinv H0) as (Hperm & _).
  symmetry in Hperm.
  destruct (Permutation_map_inv _ _ Hperm) as (arrival & Heq & Hp).
  exists arrival. repeat split; auto.
  unfold getPublicIP_arriving. rewrite <- Heq, <- Hips, Hr, Hlog.
  now destruct (decide (ips s)).
Qed.

Lemma steps_trans (a b c : state) :
  steps net svcs a b -> steps net svcs b c -> steps net svcs a c.
Proof.
  unfold steps. intros Hab Hbc. induction Hab as [|x y z Hxy Hyz IH]; auto.
  econstructor 2; [exact Hxy | exact (IH Hbc)].
Qed.

Lemma steps_one (a b : state) : step net svcs a b -> steps net svcs a b.
Proof. intros H. econstructor; [exact H | constructor]. Qed.

(** The first loop starts one goroutine per service. *)
Lemma go_all (rest run : list string) (ch got : list result) (n : nat) :
  steps net svcs
    {| spawning := rest; running := run; results := ch; pending := n;
       ips := []; received := got; logged := []; returned := None |}
    {| spawning := []; running := run ++ rest; results := ch; pending := n;
       ips := []; received := got; logged := []; returned := None |}.
Proof.
  revert run. induction rest as [|u rest IH]; intros run.
  - rewrite app_nil_r. constructor.
  - econstructor; [apply step_go|].
    replace (run ++ u :: rest)%list with ((run ++ [u]) ++ rest)%list
      by now rewrite <- app_assoc.
    apply IH.
Qed.

(** The goroutines can send in any order, while the channel has room. *)
Lemma send_all (arrival run : list string) (ch got : list result) (n : nat)
  (l lg : list string) (ret0 : option (string * option error)) :
  Permutation run arrival ->
  List.length ch + List.length arrival <= List.length svcs ->
  steps net svcs
    {| spawning := []; running := run; results := ch; pending := n;
       ips := l; received := got; logged := lg; returned := ret0 |}
    {| spawning := []; running := []; results := ch ++ map (fetched net) arrival;
       pending := n; ips := l; received := got; logged := lg;
       returned := ret0 |}.
Proof.
  revert run ch. induction arrival as [|u arrival IH]; intros run ch Hp Hlen.
  - symmetry in Hp. apply Permutation_nil in Hp. subst run. simpl. rewrite app_nil_r.
    constructor.
  - assert (In u run) as Hin
        by (eapply Permutation_in; [symmetry; exact Hp | now left]).
    destruct (in_split _ _ Hin) as (before & after & ->).
    symmetry in Hp. apply Permutation_cons_app_inv in Hp. symmetry in Hp.
    simpl in Hlen.
    econstructor; [apply step_send; lia|].
    replace (ch ++ map (fetched net) (u :: arrival))%list
      with ((ch ++ [fetched net u]) ++ map (fetched net) arrival)%list
      by (now rewrite <- app_assoc).
    apply IH; auto. rewrite length_app. simpl. lia.
Qed.

(** The second loop takes the values off the channel, oldest first. *)
Lemma receive_all (ch ch' got : list result) (run l : list string) (n : nat) :
  steps net svcs
    {| spawning := []; running := run; results := ch ++ ch';
       pending := List.length ch + n; ips := l; received := got;
       logged := []; returned := None |}
    {| spawning := []; running := run; results := ch'; pending := n;
       ips := fold_left receive ch l; received := got ++ ch;
       logged := []; returned := None |}.
Proof.
  revert got l. induction ch as [|res ch IH]; intros got l; simpl.
  - rewrite app_nil_r. constructor.
  - econstructor; [apply step_receive|].
    replace (got ++ res :: ch)%list with ((got ++ [res]) ++ ch)%list
      by now rewrite <- app_assoc.
    apply IH.
Qed.

(** Every order of arrival is the order of some interleaving. *)
Lemma arriving_returned (arrival : list string) :
  Permutation svcs arrival ->
  exists s, reachable net svcs s
            /\ returned s = Some (snd (getPublicIP_arriving net arrival))
            /\ logged s = fst (getPublicIP_arriving net arrival)
            /\ received s = map (fetched net) arrival.
Proof.
  intros Hp. pose proof (Permutation_length Hp) as Hl.
  eexists. split.
  - unfold reachable, init.
    eapply steps_trans; [apply go_all|]. simpl.
    eapply steps_trans; [apply (@send_all arrival); [exact Hp | simpl; lia]|].
    simpl.
    pose proof (@receive_all (map (fetched net) arrival) [] [] [] [] 0) as Hrecv.
    rewrite app_nil_r, length_map, Nat.add_0_r in Hrecv. rewrite Hl.
    eapply steps_trans; [exact Hrecv|].
    apply steps_one. apply step_return.
  - simpl. auto.
Qed.

(** A call that has not returned can always take a step: the channel is
    never full when a goroutine sends, and the receiving loop never waits
    for a value that will not come. *)
Lemma progress (s : state) :
  reachable net svcs s -> returned s = None -> exists s', step net svcs s s'.
Proof.
  intros Hreach Hnone. pose proof (inv_reachable Hreach) as Hinv.
  pose proof Hinv as (Hperm & Hips & Hlen & Hret).
  rewrite Hnone in Hret.
  destruct s as [sp run ch n l got lg ret0]; simpl in *. subst ret0 lg.
  pose proof (Permutation_length Hperm) as Hl.
  rewrite length_map, !length_app, length_map, length_app in Hl.
  destruct run as [|u run].
  - destruct sp as [|v sp].
    + destruct n as [|n].
      * eexists. apply step_return.
      * destruct ch as [|res ch]; [simpl in Hl; lia|].
        eexists. apply step_receive.
    + eexists. apply step_go.
  - eexists. apply (@step_send net svcs sp [] u run). simpl in Hl. lia.
Qed.

Lemma step_budget (s s' : state) :
  step net svcs s s' -> budget s' < budget s.
Proof.
  intros H; destruct H; unfold budget; simpl;
    rewrite ?length_app; simpl; lia.
Qed.

(** No interleaving goes on for ever. *)
Lemma step_terminates : well_founded (fun s' s => step net svcs s s').
Proof.
  apply (well_founded_lt_compat _ budget). intros x y. apply step_budget.
Qed.

(** What the receiving loop keeps: the addresses of the values without
    error, in the order received. *)
Lemma collect_filter (got : list result) :
  collect got
  = map ip (filter (fun r => match err r with None => true | _ => false end)
                   got).
Proof.
  induction got as [|r got IH] using rev_ind; [reflexivity|].
  rewrite collect_snoc, filter_app, map_app, <- IH. unfold receive. simpl.
  destruct (err r); simpl; now rewrite ?app_nil_r.
Qed.

End Resolver.

(** ** The two configured services *)

Section TwoServices.

Variable net : Net.

Lemma arrival_orders (arrival : list string) :
  Permutation services arrival ->
  arrival = [checkip; icanhazip] \/ arrival = [icanhazip; checkip].
Proof.
  intros Hp. apply Permutation_length_2_inv in Hp. tauto.
Qed.

(** A return of [getPublicIP] has received both values, in one of the two
    orders, and decided on them. *)
Lemma returned_two (s : state) (r : string * option error) :
  reachable net services s -> returned s = Some r ->
  (received s = [fetched net checkip; fetched net icanhazip]
   \/ received s = [fetched net icanhazip; fetched net checkip])
  /\ (logged s, r) = decide (collect (received s)).
Proof.
  intros Hreach Hret.
  destruct (returned_arriving Hreach Hret) as (arrival & Hp & Hrecv & Hout).
  unfold getPublicIP_arriving in Hout. rewrite <- Hrecv in Hout.
  split; auto.
  destruct (arrival_orders Hp) as [-> | ->]; rewrite Hrecv; auto.
Qed.

Lemma arriving_getPublicIP (arrival : list string) :
  Permutation services arrival ->
  getPublicIP net (getPublicIP_arriving net arrival).
Proof.
  intros Hp. destruct (arriving_returned net Hp) as (s & Hr & Hret & Hlog & _).
  exists s. auto.
Qed.

Lemma getPublicIP_arriving_inv (out : list string * (string * option error)) :
  getPublicIP net out ->
  out = getPublicIP_arriving net [checkip; icanhazip]
  \/ out = getPublicIP_arriving net [icanhazip; checkip].
Proof.
  intros (s & Hreach & Hret & Hlog).
  destruct (returned_arriving Hreach Hret) as (arrival & Hp & _ & Hout).
  rewrite Hlog, <- surjective_pairing in Hout.
  destruct (arrival_orders Hp) as [-> | ->]; auto.
Qed.

Lemma fetched_ok (url a : string) :
  fetchIP net url = (a, None) -> fetched net url = {| ip := a; err := None |}.
Proof. unfold fetched. now intros ->. Qed.

Lemma decide_two_differ (a b : string) :
  a <> b -> decide [a; b] = ([mismatch_warning a b], (a, None)).
Proof.
  intros Hab. unfold decide. simpl.
  now destruct (String.eqb_spec a b).
Qed.

Lemma decide_two_same (a : string) : decide [a; a] = ([], (a, None)).
Proof. unfold decide. simpl. now rewrite String.eqb_refl. Qed.

End TwoServices.

(** ** What TrimSpace removes *)

Section Pieces.

Variable sp1 : ascii -> bool.
Variable sp2 : ascii -> ascii -> bool.
Variable sp3 : ascii -> ascii -> ascii -> bool.

(** [trimFront] splits a text into pieces that the tests accept and a rest
    that starts with no such piece. *)
Lemma trimFront_spaced (n : nat) :
  forall s : bytes, List.length s <= n ->
    exists pre,
      s = (pre ++ Strings.trimFront sp1 sp2 sp3 s)%list
      /\ spaced sp1 sp2 sp3 pre
      /\ unfronted sp1 sp2 sp3 (Strings.trimFront sp1 sp2 sp3 s).
Proof.
  induction n as [|n IH]; intros s Hlen.
  - destruct s; [|simpl in Hlen; lia].
    exists []. repeat split. constructor.
  - destruct s as [|c0 t0].
    { exists []. repeat split. constructor. }
    simpl in Hlen. simpl.
    destruct (sp1 c0) eqn:H1.
    { destruct (IH t0 ltac:(lia)) as (pre & Hpre & Hsp & Hun).
      exists (c0 :: pre). simpl. rewrite <- Hpre.
      repeat split; [now constructor | exact Hun]. }
    destruct t0 as [|c1 t1].
    { exists []. simpl. repeat split; [constructor | exact H1]. }
    simpl in Hlen. destruct (sp2 c0 c1) eqn:H2.
    { destruct (IH t1 ltac:(lia)) as (pre & Hpre & Hsp & Hun).
      exists (c0 :: c1 :: pre). simpl. rewrite <- Hpre.
      repeat split; [now constructor | exact Hun]. }
    destruct t1 as [|c2 t2].
    { exists []. simpl. repeat split; [constructor | exact H1 | exact H2]. }
    simpl in Hlen. destruct (sp3 c0 c1 c2) eqn:H3.
    { destruct (IH t2 ltac:(lia)) as (pre & Hpre & Hsp & Hun).
      exists (c0 :: c1 :: c2 :: pre). simpl. rewrite <- Hpre.
      repeat split; [now constructor | exact Hun]. }
    exists []. simpl. repeat split; [constructor | assumption ..].
Qed.

Lemma unfronted_prefix (p q : bytes) :
  unfronted sp1 sp2 sp3 (p ++ q)%list -> unfronted sp1 sp2 sp3 p.
Proof.
  destruct p as [|c0 [|c1 [|c2 p]]]; simpl; tauto.
Qed.

Lemma spaced_app (x y : bytes) :
  spaced sp1 sp2 sp3 x -> spaced sp1 sp2 sp3 y ->
  spaced sp1 sp2 sp3 (x ++ y)%list.
Proof.
  intros Hx Hy. induction Hx; simpl; auto; now constructor.
Qed.

End Pieces.

(** Pieces accepted from the back, read from the front. *)
Lemma spaced_back_rev (s : bytes) :
  spaced front1 back2 back3 s -> spaced front1 front2 front3 (rev s).
Proof.
  intros H. induction H as [|c s H1 _ IH|b a s H2 _ IH|c b a s H3 _ IH];
    simpl; [constructor | | | ]; rewrite <- ?app_assoc;
    apply spaced_app; auto; simpl.
  - now apply spaced_1; [|constructor].
  - now apply spaced_2; [|constructor].
  - now apply spaced_3; [|constructor].
Qed.

(** *** The tests against the table of white space *)

Lemma in_bytes_from (c : ascii) (lo n : nat) :
  lo <= nat_of_ascii c < lo + n -> In c (bytes_from lo n).
Proof.
  intros H. unfold bytes_from. rewrite <- (ascii_nat_embedding c).
  apply in_map, in_seq. exact H.
Qed.

Lemma between_bytes_from (c : ascii) (lo hi : N) :
  Unicode.between lo hi (Unicode.byte c) = true ->
  In c (bytes_from (N.to_nat lo) (S (N.to_nat hi - N.to_nat lo))).
Proof.
  unfold Unicode.between, Unicode.byte. intros H.
  apply andb_true_iff in H. destruct H as (Hlo & Hhi).
  apply N.leb_le in Hlo, Hhi. apply in_bytes_from.
  unfold nat_of_ascii. lia.
Qed.

Lemma same_bytes_eq (x y : bytes) : same_bytes x y = true -> x = y.
Proof.
  unfold same_bytes. now destruct (list_eq_dec ascii_dec x y).
Qed.

Lemma accounted_spec (r : option N) (encoded : bytes) :
  accounted r encoded = true -> Unicode.space r = true ->
  exists r', In r' White_Space /\ utf8 r' = encoded.
Proof.
  destruct r as [r|]; [|intros _ H; discriminate].
  unfold accounted, Unicode.space. intros Hacc Hsp.
  rewrite Hsp in Hacc. cbn [implb] in Hacc.
  apply andb_true_iff in Hacc. destruct Hacc as (Hin & Hsame).
  apply existsb_exists in Hin. destruct Hin as (r' & Hin & Heq).
  apply N.eqb_eq in Heq. subst r'.
  exists r. split; [exact Hin | now apply same_bytes_eq].
Qed.

Lemma table1 :
  forallb (fun a => accounted (Unicode.rune1 a) [a]) (bytes_from 0 256)
  = true.
Proof. vm_compute. reflexivity. Qed.

Lemma table2 :
  forallb (fun a =>
    forallb (fun b => accounted (Unicode.rune2 a b) [a; b])
            (bytes_from 128 64))
    (bytes_from 194 30) = true.
Proof. vm_compute. reflexivity. Qed.

Lemma table3 :
  forallb (fun a =>
    forallb (fun b =>
      forallb (fun c => accounted (Unicode.rune3 a b c) [a; b; c])
              (bytes_from 128 64))
      (bytes_from 128 64))
    (bytes_from 224 16) = true.
Proof. vm_compute. reflexivity. Qed.

Lemma front1_white (a : ascii) :
  front1 a = true -> exists r, In r White_Space /\ utf8 r = [a].
Proof.
  intros H. apply accounted_spec with (r := Unicode.rune1 a); [|exact H].
  pose proof table1 as T. rewrite forallb_forall in T. apply T.
  apply in_bytes_from. pose proof (nat_ascii_bounded a). lia.
Qed.

Lemma front2_white (a b : ascii) :
  front2 a b = true -> exists r, In r White_Space /\ utf8 r = [a; b].
Proof.
  intros H. apply accounted_spec with (r := Unicode.rune2 a b); [|exact H].
  unfold front2, Unicode.rune2 in H.
  destruct (Unicode.between 0xC2 0xDF (Unicode.byte a)) eqn:Ha;
    [|discriminate].
  destruct (Unicode.between 0x80 0xBF (Unicode.byte b)) eqn:Hb;
    [|discriminate].
  pose proof table2 as T. rewrite forallb_forall in T.
  specialize (T a (between_bytes_from _ _ _ Ha)).
  rewrite forallb_forall in T. apply T.
  exact (between_bytes_from _ _ _ Hb).
Qed.

Lemma front3_white (a b c : ascii) :
  front3 a b c = true -> exists r, In r White_Space /\ utf8 r = [a; b; c].
Proof.
  intros H. apply accounted_spec with (r := Unicode.rune3 a b c); [|exact H].
  unfold front3, Unicode.rune3 in H.
  destruct (Unicode.between 0xE0 0xEF (Unicode.byte a)) eqn:Ha;
    [|discriminate].
  destruct (Unicode.between 0x80 0xBF (Unicode.byte b)) eqn:Hb.
  2:{ exfalso. revert H. unfold Unicode.between in Hb |- *.
      destruct (Unicode.byte a =? 224)%N, (Unicode.byte a =? 237)%N;
        apply andb_false_iff in Hb;
        destruct Hb as [Hb | Hb]; apply N.leb_gt in Hb;
        match goal with
        | |- context [(?lo <=? Unicode.byte b)%N && (Unicode.byte b <=? ?hi)%N] =>
            replace ((lo <=? Unicode.byte b)%N && (Unicode.byte b <=? hi)%N)
              with false
              by (symmetry; apply andb_false_iff;
                  first [left; apply N.leb_gt; lia
                        | right; apply N.leb_gt; lia])
        end; simpl; discriminate. }
  destruct (Unicode.between 0x80 0xBF (Unicode.byte c)) eqn:Hc.
  2:{ revert H. rewrite andb_false_r. discriminate. }
  pose proof table3 as T. rewrite forallb_forall in T.
  specialize (T a (between_bytes_from _ _ _ Ha)).
  rewrite forallb_forall in T.
  specialize (T b (between_bytes_from _ _ _ Hb)).
  rewrite forallb_forall in T. apply T.
  exact (between_bytes_from _ _ _ Hc).
Qed.

Lemma white_accepted (r : N) :
  In r White_Space ->
  match utf8 r with
  | [a] => front1 a = true
  | [a; b] => front2 a b = true
  | [a; b; c] => front3 a b c = true
  | _ => False
  end.
Proof.
  unfold White_Space. intros Hin.
  repeat (destruct Hin as [<- | Hin]; [vm_compute; reflexivity|]).
  contradiction.
Qed.

Lemma spaced_white (pre : bytes) :
  spaced front1 front2 front3 pre ->
  exists rs, Forall (fun r => In r White_Space) rs
             /\ pre = List.concat (map utf8 rs).
Proof.
  intros H.
  induction H as [|c s H1 _ (rs & Hrs & ->)|a b s H2 _ (rs & Hrs & ->)
                  |a b c s H3 _ (rs & Hrs & ->)].
  - exists []. split; [constructor | reflexivity].
  - destruct (front1_white _ H1) as (r & Hr & Hutf).
    exists (r :: rs). split; [now constructor|]. simpl. now rewrite Hutf.
  - destruct (front2_white _ _ H2) as (r & Hr & Hutf).
    exists (r :: rs). split; [now constructor|]. simpl. now rewrite Hutf.
  - destruct (front3_white _ _ _ H3) as (r & Hr & Hutf).
    exists (r :: rs). split; [now constructor|]. simpl. now rewrite Hutf.
Qed.

Lemma unfronted_not_starts (t : bytes) (r : N) (rest : bytes) :
  unfronted front1 front2 front3 t -> In r White_Space ->
  t <> (utf8 r ++ rest)%list.
Proof.
  intros Hun Hr Heq. pose proof (@white_accepted r Hr) as Hacc. subst t.
  destruct (utf8 r) as [|a [|b [|c [|d u]]]]; try contradiction;
    simpl in Hun.
  - destruct Hun as (H1 & _). congruence.
  - destruct Hun as (_ & H2 & _). congruence.
  - destruct Hun as (_ & _ & H3). congruence.
Qed.

Lemma unfronted_back_not_ends (k : bytes) (r : N) (rest : bytes) :
  unfronted front1 back2 back3 k -> In r White_Space ->
  rev k <> (rest ++ utf8 r)%list.
Proof.
  intros Hun Hr Heq. pose proof (@white_accepted r Hr) as Hacc.
  apply (f_equal (@rev ascii)) in Heq.
  rewrite rev_involutive, rev_app_distr in Heq. subst k.
  destruct (utf8 r) as [|a [|b [|c [|d u]]]]; try contradiction;
    simpl in Hun; unfold back2, back3 in Hun.
  - destruct Hun as (H1 & _). congruence.
  - destruct Hun as (_ & H2 & _). congruence.
  - destruct Hun as (_ & _ & H3). congruence.
Qed.

(** [TrimSpace] removes from both ends all the white space there is, and
    nothing else: what it removes in front and at the back is white space
    throughout, and what it keeps neither starts nor ends with white
    space. *)
Lemma TrimSpace_removes (body : string) :
  exists pre suf,
    body = pre ++ Strings.TrimSpace body ++ suf
    /\ white pre /\ white suf
    /\ ~ starts_white (Strings.TrimSpace body)
    /\ ~ ends_white (Strings.TrimSpace body).
Proof.
  unfold white, starts_white, ends_white, Strings.TrimSpace,
    Strings.TrimLeftSpace, Strings.TrimRightSpace.
  change (fun a => Unicode.space (Unicode.rune1 a)) with front1.
  change (fun a b => Unicode.space (Unicode.rune2 a b)) with front2.
  change (fun a b c => Unicode.space (Unicode.rune3 a b c)) with front3.
  change (fun b a => Unicode.space (Unicode.rune2 a b)) with back2.
  change (fun c b a => Unicode.space (Unicode.rune3 a b c)) with back3.
  set (l := list_ascii_of_string body).
  destruct (@trimFront_spaced front1 front2 front3 (List.length l) l
              (le_n _)) as (pre & Hpre & Hsp & Hun).
  set (m := Strings.trimFront front1 front2 front3 l) in *.
  destruct (@trimFront_spaced front1 back2 back3 (List.length (rev m))
              (rev m) (le_n _)) as (suf & Hsuf & Hsp' & Hun').
  set (k := Strings.trimFront front1 back2 back3 (rev m)) in *.
  assert (m = (rev k ++ rev suf)%list) as Hm
      by (now rewrite <- rev_app_distr, <- Hsuf, rev_involutive).
  exists (string_of_list_ascii pre), (string_of_list_ascii (rev suf)).
  rewrite !list_ascii_of_string_of_list_ascii.
  repeat split.
  - rewrite <- !string_of_list_ascii_app, <- Hm, <- Hpre.
    symmetry. apply string_of_list_ascii_of_string.
  - now apply spaced_white.
  - now apply spaced_white, spaced_back_rev.
  - intros (r & rest & Hr & Heq).
    apply (@unfronted_not_starts (rev k) r rest); auto.
    apply unfronted_prefix with (q := rev suf). now rewrite <- Hm.
  - intros (r & rest & Hr & Heq).
    now apply (@unfronted_back_not_ends k r rest).
Qed.

(** ** fetchIP *)

Lemma fetched_fetchIP (net : Net) (url : string) :
  fetched net url
  = {| ip := fst (fetchIP net url); err := snd (fetchIP net url) |}.
Proof. unfold fetched. now destruct (fetchIP net url). Qed.

Lemma fetchIP_responds (net : Net) (url : string) (status : Z) (body : string) :
  net url = respond status body ->
  fetchIP net url
  = if String.eqb (Strings.TrimSpace body) ""
    then ("", Some ("received empty IP address from " ++ url))
    else (Strings.TrimSpace body, None).
Proof. unfold fetchIP, respond. now intros ->. Qed.

(** C9: whatever the body of a response, [fetchIP] takes as the address
    the body with its surrounding white space removed: the body is white
    space, then the address, then white space, and the address neither
    starts nor ends with white space (the white space of Unicode, in
    UTF-8). When nothing is left the fetch fails and the receiving loop
    drops it, as it drops a fetch that failed in transport; otherwise the
    fetch succeeds with exactly the trimmed text, which the loop keeps. *)
Theorem fetchIP_trimmed_body (net : Net) (url : string) (status : Z)
  (body : string) (l : list string) :
  net url = respond status body ->
  exists pre ip suf,
    body = pre ++ ip ++ suf
    /\ white pre /\ white suf
    /\ ~ starts_white ip /\ ~ ends_white ip
    /\ ip = Strings.TrimSpace body
    /\ (ip = "" ->
        fetchIP net url
        = ("", Some ("received empty IP address from " ++ url))
        /\ receive l (fetched net url) = l
        /\ forall net' e, net' url = DoErr e ->
             receive l (fetched net' url) = receive l (fetched net url))
    /\ (ip <> "" ->
        fetchIP net url = (ip, None)
        /\ receive l (fetched net url) = (l ++ [ip])%list).
Proof.
  intros Hnet.
  destruct (TrimSpace_removes body)
    as (pre & suf & Hbody & Hpre & Hsuf & Hfront & Hback).
  exists pre, (Strings.TrimSpace body), suf.
  rewrite fetched_fetchIP, (fetchIP_responds _ _ Hnet).
  repeat (split; [assumption || reflexivity|]).
  split; intros Htrim.
  - rewrite Htrim. simpl. repeat split.
    intros net' e Hnet'. rewrite fetched_fetchIP. unfold fetchIP.
    now rewrite Hnet'.
  - apply String.eqb_neq in Htrim. rewrite Htrim. now split.
Qed.

Lemma fetchIP_trimmed_body_witness :
  exists pre ip suf,
    nbsp ++ " " ++ "203.0.113.9" ++ emsp ++ nl = pre ++ ip ++ suf
    /\ white pre /\ white suf
    /\ ~ starts_white ip /\ ~ ends_white ip
    /\ ip = "203.0.113.9"
    /\ fetchIP net_padded icanhazip = (ip, None)
    /\ receive ["203.0.113.5"] (fetched net_padded icanhazip)
       = (["203.0.113.5"] ++ [ip])%list.
Proof.
  destruct (@fetchIP_trimmed_body net_padded icanhazip 200
              (nbsp ++ " " ++ "203.0.113.9" ++ emsp ++ nl)
              ["203.0.113.5"] eq_refl)
    as (pre & ip & suf & Hbody & Hpre & Hsuf & Hfront & Hback & Hip
        & _ & Hkept).
  assert (ip = "203.0.113.9") as Hval by (rewrite Hip; reflexivity).
  assert (ip <> "") as Hne by (rewrite Hval; discriminate).
  destruct (Hkept Hne) as (Hfetch & Hrecv).
  exists pre, ip, suf. repeat split; assumption.
Defined.

(** C2, as stated, fails: a response with status 404 and a body that is not
    blank is a successful fetch, and its body is kept by the receiving
    loop. *)
Lemma non_2xx_is_success :
  net_404 checkip = respond 404 ("404 page not found" ++ nl)
  /\ fetchIP net_404 checkip = ("404 page not found", None)
  /\ receive [] (fetched net_404 checkip) = ["404 page not found"]
  /\ getPublicIP net_404 ([], ("404 page not found", None)).
Proof.
  repeat split.
  assert (Permutation services [checkip; icanhazip]) as Hp by reflexivity.
  exact (arriving_getPublicIP net_404 Hp).
Qed.

(** C2, amended: [fetchIP] does not look at the status code. A response,
    2xx or not, whose body is read is a failure exactly when the trimmed
    body is empty; otherwise it is a success with the trimmed body, and the
    receiving loop keeps it. Two responses that differ in status only are
    fetched alike. *)
Theorem fetchIP_ignores_status (net : Net) (url : string) (status : Z)
  (body : string) :
  net url = respond status body ->
  (snd (fetchIP net url) <> None <-> Strings.TrimSpace body = "")
  /\ (Strings.TrimSpace body <> "" ->
      forall l, receive l (fetched net url)
                = (l ++ [Strings.TrimSpace body])%list)
  /\ (forall net' status', net' url = respond status' body ->
      fetchIP net' url = fetchIP net url).
Proof.
  intros Hnet. rewrite fetched_fetchIP, (fetchIP_responds _ _ Hnet).
  repeat split.
  - destruct (String.eqb_spec (Strings.TrimSpace body) ""); simpl; tauto.
  - destruct (String.eqb_spec (Strings.TrimSpace body) ""); simpl;
      [discriminate | congruence].
  - intros Hne l. apply String.eqb_neq in Hne. now rewrite Hne.
  - intros net' status' Hnet'. now rewrite (fetchIP_responds _ _ Hnet').
Qed.

Lemma fetchIP_ignores_status_witness :
  net_404 checkip = respond 404 ("404 page not found" ++ nl)
  /\ (snd (fetchIP net_404 checkip) <> None
      <-> Strings.TrimSpace ("404 page not found" ++ nl) = "").
Proof.
  split; [reflexivity|].
  exact (proj1 (@fetchIP_ignores_status net_404 checkip 404
                  ("404 page not found" ++ nl) eq_refl)).
Defined.

(** ** getPublicIP *)

(** C1, as stated, fails: both services succeed with different addresses,
    and in the interleaving where the second service's value reaches the
    channel first [getPublicIP] returns the second service's address. *)
Lemma second_service_can_win :
  fetchIP net_disagree checkip = ("203.0.113.5", None)
  /\ fetchIP net_disagree icanhazip = ("203.0.113.9", None)
  /\ getPublicIP net_disagree
       ([mismatch_warning "203.0.113.9" "203.0.113.5"],
        ("203.0.113.9", None)).
Proof.
  repeat split.
  assert (Permutation services [icanhazip; checkip]) as Hp
      by apply perm_swap.
  exact (arriving_getPublicIP net_disagree Hp).
Qed.

(** C1, amended: when both services succeed with different addresses,
    every return of [getPublicIP] is a success with the address of the
    value received first from the channel, whichever service sent it, and
    one warning about the mismatch is logged; both services' addresses are
    returned in some interleaving. *)
Theorem disagreement_first_received (net : Net) (a b : string) :
  fetchIP net checkip = (a, None) ->
  fetchIP net icanhazip = (b, None) ->
  a <> b ->
  (forall s r, reachable net services s -> returned s = Some r ->
     exists first second,
       received s = [first; second]
       /\ r = (ip first, None)
       /\ logged s = [mismatch_warning (ip first) (ip second)]
       /\ (first = fetched net checkip /\ second = fetched net icanhazip
           \/ first = fetched net icanhazip /\ second = fetched net checkip))
  /\ getPublicIP net ([mismatch_warning a b], (a, None))
  /\ getPublicIP net ([mismatch_warning b a], (b, None)).
Proof.
  intros Ha Hb Hab.
  pose proof (fetched_ok net _ Ha) as Hfa.
  pose proof (fetched_ok net _ Hb) as Hfb.
  repeat split.
  - intros s r Hreach Hret.
    destruct (returned_two Hreach Hret) as ([Hrecv | Hrecv] & Hout);
      rewrite Hrecv in Hout |- *; do 2 eexists;
      (split; [reflexivity|]);
      rewrite Hfa, Hfb in Hout |- *; rewrite collect_filter in Hout;
      simpl in Hout |- *;
      rewrite decide_two_differ in Hout by congruence;
      inversion Hout; subst; auto.
  - assert (Permutation services [checkip; icanhazip]) as Hp by reflexivity.
    pose proof (arriving_getPublicIP net Hp) as H.
    unfold getPublicIP_arriving in H. simpl in H. rewrite Hfa, Hfb in H.
    rewrite collect_filter in H. simpl in H.
    now rewrite decide_two_differ in H.
  - assert (Permutation services [icanhazip; checkip]) as Hp
        by apply perm_swap.
    pose proof (arriving_getPublicIP net Hp) as H.
    unfold getPublicIP_arriving in H. simpl in H. rewrite Hfa, Hfb in H.
    rewrite collect_filter in H. simpl in H.
    rewrite decide_two_differ in H; congruence.
Qed.

Lemma disagreement_first_received_witness :
  getPublicIP net_disagree
    ([mismatch_warning "203.0.113.5" "203.0.113.9"], ("203.0.113.5", None))
  /\ getPublicIP net_disagree
       ([mismatch_warning "203.0.113.9" "203.0.113.5"],
        ("203.0.113.9", None)).
Proof.
  assert ("203.0.113.5" <> "203.0.113.9") as Hne by discriminate.
  exact (proj2 (@disagreement_first_received net_disagree
                  "203.0.113.5" "203.0.113.9" eq_refl eq_refl Hne)).
Defined.

Lemma reachable_returned_disagree :
  reachable net_disagree services returned_disagree.
Proof.
  unfold reachable, init, services. simpl.
  econstructor 2; [apply step_go|]. simpl.
  econstructor 2; [apply step_go|]. simpl.
  econstructor 2;
    [apply (@step_send net_disagree [checkip; icanhazip] [] [checkip]
              icanhazip []); simpl; lia|]. simpl.
  econstructor 2;
    [apply (@step_send net_disagree [checkip; icanhazip] [] []
              checkip []); simpl; lia|]. simpl.
  econstructor 2; [apply step_receive|].
  econstructor 2; [apply step_receive|].
  econstructor 2; [apply step_return|].
  constructor.
Qed.

Lemma decide_one (a : string) : decide [a] = ([], (a, None)).
Proof. reflexivity. Qed.

Lemma decide_ok_in (l lg : list string) (a : string) :
  decide l = (lg, (a, None)) -> In a l.
Proof.
  destruct l as [|x l]; unfold decide; simpl; intros H; inversion H.
  now left.
Qed.

Lemma fetchIP_ok_inv (net : Net) (url a : string) :
  fetchIP net url = (a, None) ->
  exists status body,
    net url = respond status body /\ a = Strings.TrimSpace body /\ a <> "".
Proof.
  unfold fetchIP, respond. destruct (net url) as [e|e|[status [body [e|]]]];
    simpl; try discriminate.
  destruct (String.eqb_spec (Strings.TrimSpace body) ""); try discriminate.
  intros H. inversion H. subst. eauto.
Qed.

(** C5: at a return of [getPublicIP] the receiving loop has run all its
    iterations and has taken exactly one value per configured service off
    the channel: nothing is left on the channel, no goroutine is still to
    send, and the value returned is decided on the values received. *)
Theorem returns_after_all_received (net : Net) (s : state)
  (r : string * option error) :
  reachable net services s -> returned s = Some r ->
  Permutation (map (fetched net) services) (received s)
  /\ List.length (received s) = List.length services
  /\ pending s = 0 /\ results s = [] /\ running s = [] /\ spawning s = []
  /\ (logged s, r) = decide (collect (received s)).
Proof.
  intros Hreach Hret. pose proof (inv_reachable Hreach) as Hinv.
  pose proof Hinv as (_ & Hips & Hlen & Hr). rewrite Hret in Hr.
  destruct Hr as (H0 & _ & Hr & Hlog).
  destruct (inv_drained Hinv H0) as (Hperm & Hres & Hrun & Hsp).
  repeat split; auto.
  - rewrite H0 in Hlen. now simpl in Hlen.
  - rewrite <- Hips, Hr, Hlog. now destruct (decide (ips s)).
Qed.

Lemma returns_after_all_received_witness :
  Permutation (map (fetched net_disagree) services)
    (received returned_disagree)
  /\ List.length (received returned_disagree) = List.length services.
Proof.
  destruct (@returns_after_all_received net_disagree returned_disagree
              ("203.0.113.9", None) reachable_returned_disagree eq_refl)
    as (Hp & Hl & _).
  exact (conj Hp Hl).
Defined.

(** C8: an address returned by [getPublicIP] is the address of a successful
    fetch of this call: one of the configured services answered with a body
    whose trimmed text is exactly the address returned (a piece of the body
    as it was received), and that value was received from the channel. *)
Theorem returned_address_was_fetched (net : Net) (s : state) (a : string) :
  reachable net services s -> returned s = Some (a, None) ->
  exists url status body,
    In url services
    /\ net url = respond status body
    /\ a = Strings.TrimSpace body
    /\ (exists pre suf, body = pre ++ a ++ suf)
    /\ fetchIP net url = (a, None)
    /\ In (fetched net url) (received s).
Proof.
  intros Hreach Hret.
  destruct (returned_arriving Hreach Hret) as (arrival & Hp & Hrecv & Hout).
  unfold getPublicIP_arriving in Hout. symmetry in Hout.
  apply decide_ok_in in Hout. rewrite collect_filter in Hout.
  apply in_map_iff in Hout. destruct Hout as (res & Hip & Hin).
  apply filter_In in Hin. destruct Hin as (Hin & Herr).
  apply in_map_iff in Hin. destruct Hin as (url & Hres & Hurl).
  assert (fetchIP net url = (a, None)) as Hfetch.
  { rewrite fetched_fetchIP in Hres. subst res. simpl in *.
    destruct (fetchIP net url) as [x [e|]]; simpl in *;
      [discriminate | congruence]. }
  destruct (fetchIP_ok_inv _ _ Hfetch) as (status & body & Hnet & Ha & _).
  exists url, status, body. repeat split; auto.
  - eapply Permutation_in; [symmetry; exact Hp | exact Hurl].
  - rewrite Ha. apply TrimSpace_infix.
  - rewrite Hrecv. now apply in_map.
Qed.

Lemma returned_address_was_fetched_witness :
  exists url status body,
    In url services
    /\ net_disagree url = respond status body
    /\ "203.0.113.9" = Strings.TrimSpace body
    /\ (exists pre suf, body = pre ++ "203.0.113.9" ++ suf)
    /\ fetchIP net_disagree url = ("203.0.113.9", None)
    /\ In (fetched net_disagree url) (received returned_disagree).
Proof.
  exact (@returned_address_was_fetched net_disagree returned_disagree
           "203.0.113.9" reachable_returned_disagree eq_refl).
Defined.

(** C4: when at least one service succeeds, [getPublicIP] returns (a call
    that has not returned can always go on, and none goes on for ever), and
    every return is a success. When exactly one service succeeded the
    address returned is that service's; when both succeeded with the same
    address it is that address; in these cases nothing is logged. *)
Theorem some_success_resolves (net : Net) :
  (exists url, In url services /\ snd (fetchIP net url) = None) ->
  (exists out, getPublicIP net out)
  /\ (forall s, reachable net services s -> returned s = None ->
        exists s', step net services s s')
  /\ well_founded (fun s' s => step net services s s')
  /\ (forall out, getPublicIP net out -> snd (snd out) = None)
  /\ (forall a, fetchIP net checkip = (a, None) ->
        snd (fetchIP net icanhazip) <> None ->
        forall out, getPublicIP net out -> out = ([], (a, None)))
  /\ (forall b, snd (fetchIP net checkip) <> None ->
        fetchIP net icanhazip = (b, None) ->
        forall out, getPublicIP net out -> out = ([], (b, None)))
  /\ (forall v, fetchIP net checkip = (v, None) ->
        fetchIP net icanhazip = (v, None) ->
        forall out, getPublicIP net out -> out = ([], (v, None))).
Proof.
  intros (url & Hin & Hok).
  split; [|split; [|split; [|split; [|split; [|split]]]]].
  - eexists. apply arriving_getPublicIP. reflexivity.
  - intros s. apply progress.
  - apply step_terminates.
  - intros out Hout.
    assert (snd (fetchIP net checkip) = None
            \/ snd (fetchIP net icanhazip) = None) as Hone.
    { destruct Hin as [<- | [<- | []]]; auto. }
    destruct (getPublicIP_arriving_inv Hout) as [-> | ->];
      unfold getPublicIP_arriving; simpl map; rewrite !fetched_fetchIP;
      rewrite collect_filter; simpl;
      destruct (snd (fetchIP net checkip)), (snd (fetchIP net icanhazip));
      simpl; try reflexivity; destruct Hone; discriminate.
  - intros a Ha Hb out Hout.
    destruct (getPublicIP_arriving_inv Hout) as [-> | ->];
      unfold getPublicIP_arriving; simpl map; rewrite !fetched_fetchIP;
      rewrite collect_filter, Ha; simpl;
      destruct (snd (fetchIP net icanhazip)); simpl;
      solve [apply decide_one | congruence].
  - intros b Ha Hb out Hout.
    destruct (getPublicIP_arriving_inv Hout) as [-> | ->];
      unfold getPublicIP_arriving; simpl map; rewrite !fetched_fetchIP;
      rewrite collect_filter, Hb; simpl;
      destruct (snd (fetchIP net checkip)); simpl;
      solve [apply decide_one | congruence].
  - intros v Ha Hb out Hout.
    destruct (getPublicIP_arriving_inv Hout) as [-> | ->];
      unfold getPublicIP_arriving; simpl map; rewrite !fetched_fetchIP;
      rewrite collect_filter, Ha, Hb; simpl; apply decide_two_same.
Qed.

Lemma some_success_resolves_witness :
  exists out, getPublicIP net_second out
              /\ out = ([], ("203.0.113.5", None)).
Proof.
  assert (exists url, In url services
                      /\ snd (fetchIP net_second url) = None) as Hsome
      by (exists icanhazip; split; [right; left|]; reflexivity).
  assert (snd (fetchIP net_second checkip) <> None) as Hfail
      by (vm_compute; discriminate).
  destruct (@some_success_resolves net_second Hsome)
    as ((out & Hout) & _ & _ & _ & _ & H & _).
  exists out. split; [exact Hout|].
  exact (H "203.0.113.5" Hfail eq_refl out Hout).
Defined.

(** ** main *)

Lemma emit_all_run (es t : list event) :
  emit_all es t = ((t ++ es)%list, Next tt).
Proof.
  revert t. induction es as [|e es IH]; intros t; simpl.
  - now rewrite app_nil_r.
  - unfold bind, emit. rewrite IH. now rewrite <- app_assoc.
Qed.

(** The end of [main], path by path. *)
Lemma reconcile_eq (cfg : Config) (cf : Cloudflare) (zone : ResourceContainer)
  (ip : string) (records : list DNSRecord.t) (t : list event) :
  reconcile cfg cf zone ip records t
  = match records with
    | [] => ((t ++ [LogFatal ("No A records found for " ++ recordName cfg)])%list,
             Exit 1)
    | record :: _ =>
        if String.eqb (DNSRecord.Content record) ip then
          ((t ++ [Print (up_to_date_message cfg ip)])%list, Return)
        else
          let t' :=
            (t ++ [CallUpdateDNSRecord zone (update_params record ip)])%list in
          match snd (UpdateDNSRecord cf zone (update_params record ip)) with
          | Some e =>
              ((t' ++ [LogFatal ("Error updating DNS record: " ++ e)])%list,
               Exit 1)
          | None =>
              (((t' ++ [Print (updated_message cfg ip)])
                ++ [Print (updated_message cfg ip)])%list, Next tt)
          end
    end.
Proof.
  destruct records as [|record rest]; [reflexivity|].
  unfold reconcile, update_params, up_to_date_message, updated_message.
  cbn [List.length Nat.ltb Nat.leb Nat.eqb nth].
  unfold bind at 1 2.
  destruct (String.eqb (DNSRecord.Content record) ip); [reflexivity|].
  cbn [ret bind call emit Printf DNSRecord.with_Content DNSRecord.Type'
       DNSRecord.Name DNSRecord.Content DNSRecord.TTL DNSRecord.Proxied].
  destruct (UpdateDNSRecord cf zone _) as [record' [e|]]; reflexivity.
Qed.

(** [main] up to the call of [reconcile], path by path. *)
Lemma main_eq (cfg : Config) (cf : Cloudflare)
  (resolved : list string * (string * option error)) :
  main cfg cf resolved []
  = let t1 := [CallNewWithAPIToken (apiToken cfg)] in
    match NewWithAPIToken cf (apiToken cfg) with
    | Some e =>
        ((t1 ++ [LogFatal ("Error initializing Cloudflare API: " ++ e)])%list,
         Exit 1)
    | None =>
        let t2 := (t1 ++ [CallZoneIDByName (zoneName cfg)])%list in
        match ZoneIDByName cf (zoneName cfg) with
        | (_, Some e) =>
            ((t2 ++ [LogFatal ("Error fetching Zone ID for " ++ zoneName cfg
                               ++ ": " ++ e)])%list, Exit 1)
        | (zoneID, None) =>
            let t3 := ((t2 ++ [CallGetPublicIP])
                       ++ map Log (fst resolved))%list in
            match snd resolved with
            | (_, Some e) =>
                ((t3 ++ [LogFatal ("Error fetching public IP: " ++ e)])%list,
                 Exit 1)
            | (ip, None) =>
                let t4 :=
                  ((t3 ++ [Print ("Your IP address is  " ++ ip ++ nl)])
                   ++ [CallListDNSRecords (zone_of zoneID) (list_params cfg)])%list in
                match ListDNSRecords cf (zone_of zoneID) (list_params cfg) with
                | (_, _, Some e) =>
                    ((t4 ++ [LogFatal ("Error fetching DNS records: " ++ e)])%list,
                     Exit 1)
                | (records, resultInfo, None) =>
                    reconcile cfg cf (zone_of zoneID) ip records
                      (t4 ++ [Print ("Total records found: "
                                     ++ decimal (Total resultInfo) ++ nl)])%list
                end
            end
        end
    end.
Proof.
  unfold main.
  cbv beta iota zeta delta [zone_of bind call emit ret fatal_on Printf app].
  destruct (NewWithAPIToken cf (apiToken cfg)) as [e|]; [reflexivity|].
  cbv beta iota zeta delta [bind ret app].
  destruct (ZoneIDByName cf (zoneName cfg)) as [zoneID [e|]]; [reflexivity|].
  cbv beta iota zeta delta [bind ret app].
  rewrite emit_all_run.
  destruct (snd resolved) as [ip [e|]]; [reflexivity|].
  cbv beta iota zeta delta [bind ret app].
  destruct (ListDNSRecords cf _ _) as [[records resultInfo] [e|]];
    reflexivity.
Qed.

Lemma main_reconciles (cfg : Config) (cf : Cloudflare)
  (resolved : list string * (string * option error)) (zoneID ip : string)
  (records : list DNSRecord.t) (info : ResultInfo) :
  NewWithAPIToken cf (apiToken cfg) = None ->
  ZoneIDByName cf (zoneName cfg) = (zoneID, None) ->
  snd resolved = (ip, None) ->
  ListDNSRecords cf (zone_of zoneID) (list_params cfg) = (records, info, None) ->
  main cfg cf resolved []
  = reconcile cfg cf (zone_of zoneID) ip records
      (preamble cfg zoneID resolved info).
Proof.
  intros Hnew Hzone Hip Hlist.
  rewrite main_eq, Hnew, Hzone, Hip, Hlist. cbv zeta.
  f_equal. unfold preamble. rewrite Hip. cbn [fst app].
  now rewrite <- !app_assoc.
Qed.

Lemma preamble_no_update (cfg : Config) (zoneID : string)
  (resolved : list string * (string * option error)) (info : ResultInfo) :
  filter is_update (preamble cfg zoneID resolved info) = [].
Proof.
  unfold preamble. rewrite !filter_app. cbn [filter is_update app].
  rewrite app_nil_r. induction (fst resolved); auto.
Qed.

(** C3: when every configured service fails, [getPublicIP] returns (a call
    that has not returned can always go on, and none goes on for ever), and
    every return is the error that all services failed; [main] then exits
    with status 1 before it lists the DNS records, and calls neither the
    listing nor the update. *)
Theorem all_fail_no_reconcile (cfg : Config) (cf : Cloudflare) (net : Net) :
  (forall url, In url services -> snd (fetchIP net url) <> None) ->
  getPublicIP net
    ([], ("", Some "failed to fetch public IP from all services"))
  /\ (forall s, reachable net services s -> returned s = None ->
        exists s', step net services s s')
  /\ well_founded (fun s' s => step net services s s')
  /\ (forall out, getPublicIP net out ->
        out = ([], ("", Some "failed to fetch public IP from all services")))
  /\ (exists out, run cfg cf net out)
  /\ (forall out, run cfg cf net out ->
        filter is_list (fst out) = [] /\ filter is_update (fst out) = []
        /\ snd out = Exit 1).
Proof.
  intros Hfail.
  assert (forall arrival, Permutation services arrival ->
            getPublicIP_arriving net arrival
            = ([], ("", Some "failed to fetch public IP from all services")))
    as Harr.
  { intros arrival Hp. unfold getPublicIP_arriving.
    rewrite collect_filter.
    replace (filter _ (map (fetched net) arrival)) with (@nil result);
      [reflexivity|].
    symmetry. assert (forall url, In url arrival ->
                        snd (fetchIP net url) <> None) as Hall
        by (intros url Hin; apply Hfail;
            eapply Permutation_in; [symmetry; exact Hp | exact Hin]).
    clear Hp. induction arrival as [|u arrival IH]; [reflexivity|].
    simpl. rewrite fetched_fetchIP at 1. simpl.
    destruct (snd (fetchIP net u)) eqn:Hu.
    - apply IH. intros url Hin. apply Hall. now right.
    - exfalso. apply (Hall u); [now left | exact Hu]. }
  assert (forall out, getPublicIP net out ->
            out = ([], ("", Some "failed to fetch public IP from all services")))
    as Hall.
  { intros out Hout.
    destruct (getPublicIP_arriving_inv Hout) as [-> | ->]; apply Harr;
      [reflexivity | apply perm_swap]. }
  assert (getPublicIP net
            ([], ("", Some "failed to fetch public IP from all services")))
    as Hget.
  { rewrite <- (Harr services (Permutation_refl _)).
    apply arriving_getPublicIP. reflexivity. }
  split; [exact Hget|].
  split; [intros s; apply progress|].
  split; [apply step_terminates|].
  split; [exact Hall|].
  split.
  - eexists.
    exists ([], ("", Some "failed to fetch public IP from all services")).
    split; [exact Hget | reflexivity].
  - intros out (resolved & Hres & ->). rewrite (Hall _ Hres), main_eq.
    destruct (NewWithAPIToken cf _); [now repeat split|].
    destruct (ZoneIDByName cf _) as [z [e|]]; now repeat split.
Qed.

Lemma all_fail_no_reconcile_witness :
  getPublicIP net_down
    ([], ("", Some "failed to fetch public IP from all services"))
  /\ exists out, run cfg0 cf0 net_down out.
Proof.
  assert (forall url, In url services ->
                      snd (fetchIP net_down url) <> None) as Hdown
      by (intros url _; vm_compute; discriminate).
  destruct (@all_fail_no_reconcile cfg0 cf0 net_down Hdown)
    as (Hget & _ & _ & _ & Hrun & _).
  exact (conj Hget Hrun).
Defined.

(** C6: when the address resolved equals the content of the record (the
    first listed), [main] prints that the record is already up to date and
    returns: the run succeeds and has no update call in it. *)
Theorem equal_is_noop (cfg : Config) (cf : Cloudflare)
  (resolved : list string * (string * option error)) (zoneID ip : string)
  (record : DNSRecord.t) (rest : list DNSRecord.t) (info : ResultInfo) :
  NewWithAPIToken cf (apiToken cfg) = None ->
  ZoneIDByName cf (zoneName cfg) = (zoneID, None) ->
  snd resolved = (ip, None) ->
  ListDNSRecords cf (zone_of zoneID) (list_params cfg)
  = (record :: rest, info, None) ->
  DNSRecord.Content record = ip ->
  main cfg cf resolved []
  = ((preamble cfg zoneID resolved info
      ++ [Print (up_to_date_message cfg ip)])%list, Return)
  /\ filter is_update (fst (main cfg cf resolved [])) = []
  /\ succeeded (snd (main cfg cf resolved [])) = true.
Proof.
  intros Hnew Hzone Hip Hlist Heq.
  rewrite (main_reconciles _ _ _ Hnew Hzone Hip Hlist), reconcile_eq.
  apply String.eqb_eq in Heq. rewrite Heq. cbn [fst snd succeeded].
  repeat split.
  rewrite filter_app, preamble_no_update. reflexivity.
Qed.

Lemma equal_is_noop_witness :
  filter is_update
    (fst (main cfg0 cf0 ([], ("198.51.100.1", None)) [])) = []
  /\ succeeded (snd (main cfg0 cf0 ([], ("198.51.100.1", None)) [])) = true.
Proof.
  exact (proj2 (@equal_is_noop cfg0 cf0 ([], ("198.51.100.1", None)) zone0
                  "198.51.100.1" record0 [record1] {| Total := 2 |}
                  eq_refl eq_refl eq_refl eq_refl eq_refl)).
Defined.

(** C7: when the address resolved differs from the content of the record,
    the run has exactly one update call in it, and that call carries the
    record's type, name, TTL and proxied flag as listed, with the address
    resolved as content. But the call names no record: its record
    identifier is the empty string, whatever the identifier of the record
    listed. So the update the claim speaks of is not the update of that
    record, and when the client refuses the call, as it does for a call
    without identifier, the run ends there with exit status 1: the
    record is left as it was. *)
Theorem update_call_omits_record_id (cfg : Config) (cf : Cloudflare)
  (resolved : list string * (string * option error)) (zoneID ip : string)
  (record : DNSRecord.t) (rest : list DNSRecord.t) (info : ResultInfo) :
  NewWithAPIToken cf (apiToken cfg) = None ->
  ZoneIDByName cf (zoneName cfg) = (zoneID, None) ->
  snd resolved = (ip, None) ->
  ListDNSRecords cf (zone_of zoneID) (list_params cfg)
  = (record :: rest, info, None) ->
  DNSRecord.Content record <> ip ->
  filter is_update (fst (main cfg cf resolved []))
  = [CallUpdateDNSRecord (zone_of zoneID) (update_params record ip)]
  /\ UpdateDNSRecordParams.Type' (update_params record ip)
     = DNSRecord.Type' record
  /\ UpdateDNSRecordParams.Name (update_params record ip)
     = DNSRecord.Name record
  /\ UpdateDNSRecordParams.TTL (update_params record ip)
     = DNSRecord.TTL record
  /\ UpdateDNSRecordParams.Proxied (update_params record ip)
     = DNSRecord.Proxied record
  /\ UpdateDNSRecordParams.Content (update_params record ip) = ip
  /\ UpdateDNSRecordParams.ID (update_params record ip) = ""
  /\ (forall e,
        snd (UpdateDNSRecord cf (zone_of zoneID) (update_params record ip))
        = Some e ->
        main cfg cf resolved []
        = ((preamble cfg zoneID resolved info
            ++ [CallUpdateDNSRecord (zone_of zoneID)
                  (update_params record ip);
                LogFatal ("Error updating DNS record: " ++ e)])%list,
           Exit 1)).
Proof.
  intros Hnew Hzone Hip Hlist Hne.
  rewrite (main_reconciles _ _ _ Hnew Hzone Hip Hlist), reconcile_eq.
  apply String.eqb_neq in Hne. rewrite Hne. cbv zeta.
  split; [|repeat (split; [reflexivity|])].
  - destruct (snd (UpdateDNSRecord cf _ _)); cbn [fst];
      rewrite !filter_app, preamble_no_update; reflexivity.
  - intros e He. rewrite He. now rewrite <- app_assoc.
Qed.

Lemma update_call_omits_record_id_witness :
  DNSRecord.ID record0 <> ""
  /\ UpdateDNSRecordParams.ID (update_params record0 "203.0.113.5") = ""
  /\ main cfg0 cf_strict ([], ("203.0.113.5", None)) []
     = ((preamble cfg0 zone0 ([], ("203.0.113.5", None)) {| Total := 2 |}
         ++ [CallUpdateDNSRecord (zone_of zone0)
               (update_params record0 "203.0.113.5");
             LogFatal ("Error updating DNS record: "
                       ++ "required DNS record ID missing")])%list,
        Exit 1).
Proof.
  assert (DNSRecord.Content record0 <> "203.0.113.5") as Hne
      by (vm_compute; discriminate).
  assert (DNSRecord.ID record0 <> "") as Hid by (vm_compute; discriminate).
  destruct (@update_call_omits_record_id cfg0 cf_strict
              ([], ("203.0.113.5", None)) zone0 "203.0.113.5" record0
              [record1] {| Total := 2 |} eq_refl eq_refl eq_refl eq_refl Hne)
    as (_ & _ & _ & _ & _ & _ & Hnone & Hfails).
  exact (conj Hid (conj Hnone (Hfails _ eq_refl))).
Defined.

(** C10: when the listing returns several records, the run is the run on
    the first one: the only update call there can be is the update of the
    first record, made when its content differs from the address resolved,
    and the whole run is the same whatever the other records listed are. *)
Theorem only_first_record (cfg : Config) (cf : Cloudflare)
  (resolved : list string * (string * option error)) (zoneID ip : string)
  (record : DNSRecord.t) (rest : list DNSRecord.t) (info : ResultInfo) :
  NewWithAPIToken cf (apiToken cfg) = None ->
  ZoneIDByName cf (zoneName cfg) = (zoneID, None) ->
  snd resolved = (ip, None) ->
  ListDNSRecords cf (zone_of zoneID) (list_params cfg)
  = (record :: rest, info, None) ->
  filter is_update (fst (main cfg cf resolved []))
  = (if String.eqb (DNSRecord.Content record) ip then []
     else [CallUpdateDNSRecord (zone_of zoneID) (update_params record ip)])
  /\ (forall rest' t,
        reconcile cfg cf (zone_of zoneID) ip (record :: rest') t
        = reconcile cfg cf (zone_of zoneID) ip (record :: rest) t)
  /\ (forall cf' rest',
        NewWithAPIToken cf' (apiToken cfg) = None ->
        ZoneIDByName cf' (zoneName cfg) = (zoneID, None) ->
        ListDNSRecords cf' (zone_of zoneID) (list_params cfg)
        = (record :: rest', info, None) ->
        UpdateDNSRecord cf' = UpdateDNSRecord cf ->
        main cfg cf' resolved [] = main cfg cf resolved []).
Proof.
  intros Hnew Hzone Hip Hlist. split; [|split].
  - rewrite (main_reconciles _ _ _ Hnew Hzone Hip Hlist), reconcile_eq.
    destruct (String.eqb (DNSRecord.Content record) ip).
    + cbn [fst]. rewrite filter_app, preamble_no_update. reflexivity.
    + cbv zeta. destruct (snd (UpdateDNSRecord cf _ _)); cbn [fst];
        rewrite !filter_app, preamble_no_update; reflexivity.
  - intros rest' t. now rewrite !reconcile_eq.
  - intros cf' rest' Hnew' Hzone' Hlist' Hupd.
    rewrite (main_reconciles _ _ _ Hnew Hzone Hip Hlist),
      (main_reconciles _ _ _ Hnew' Hzone' Hip Hlist'), !reconcile_eq.
    now rewrite Hupd.
Qed.

Lemma only_first_record_witness :
  filter is_update (fst (main cfg0 cf0 ([], ("198.51.100.7", None)) []))
  = [CallUpdateDNSRecord (zone_of zone0)
       (update_params record0 "198.51.100.7")].
Proof.
  exact (proj1 (@only_first_record cfg0 cf0 ([], ("198.51.100.7", None)) zone0
                  "198.51.100.7" record0 [record1] {| Total := 2 |}
                  eq_refl eq_refl eq_refl eq_refl)).
Defined.

(** ** More on TrimSpace and fetchIP *)

Section TrimFront.

Variable sp1 : ascii -> bool.
Variable sp2 : ascii -> ascii -> bool.
Variable sp3 : ascii -> ascii -> ascii -> bool.

Lemma trimFront_length (s : bytes) :
  List.length (Strings.trimFront sp1 sp2 sp3 s) <= List.length s.
Proof.
  destruct (@trimFront_suffix sp1 sp2 sp3 (List.length s) s (le_n _))
    as (pre & Hpre).
  rewrite Hpre at 2. rewrite length_app. lia.
Qed.

(** A text that trimming leaves alone has no white space in front, and
    neither has any text it starts with. *)
Lemma trimFront_fixed_prefix (p q : bytes) :
  Strings.trimFront sp1 sp2 sp3 (p ++ q)%list = (p ++ q)%list ->
  Strings.trimFront sp1 sp2 sp3 p = p.
Proof.
  intros Hfix.
  assert (forall t : bytes,
            List.length t < List.length (p ++ q)%list ->
            Strings.trimFront sp1 sp2 sp3 t <> (p ++ q)%list) as Hshort.
  { intros t Hlt Heq. pose proof (trimFront_length t) as Hle.
    rewrite Heq in Hle. lia. }
  destruct p as [|c0 p]; [reflexivity|]. simpl in Hfix |- *.
  destruct (sp1 c0).
  { exfalso. eapply Hshort; [|exact Hfix].
    simpl. rewrite ?length_app. simpl. lia. }
  destruct p as [|c1 p]; [reflexivity|]. simpl in Hfix |- *.
  destruct (sp2 c0 c1).
  { exfalso. eapply Hshort; [|exact Hfix].
    simpl. rewrite ?length_app. simpl. lia. }
  destruct p as [|c2 p]; [reflexivity|]. simpl in Hfix |- *.
  destruct (sp3 c0 c1 c2); [|reflexivity].
  exfalso. eapply Hshort; [|exact Hfix].
  simpl. rewrite ?length_app. simpl. lia.
Qed.

Lemma trimFront_idem_le (n : nat) :
  forall s : bytes, List.length s <= n ->
    Strings.trimFront sp1 sp2 sp3 (Strings.trimFront sp1 sp2 sp3 s)
    = Strings.trimFront sp1 sp2 sp3 s.
Proof.
  induction n as [|n IH]; intros s Hlen.
  - destruct s; [reflexivity | simpl in Hlen; lia].
  - destruct s as [|c0 t0]; [reflexivity|]. simpl in Hlen.
    destruct (sp1 c0) eqn:H1.
    { simpl. rewrite H1. apply IH. lia. }
    destruct t0 as [|c1 t1].
    { simpl. rewrite H1. simpl. now rewrite H1. }
    simpl in Hlen. destruct (sp2 c0 c1) eqn:H2.
    { simpl. rewrite H1, H2. apply IH. lia. }
    destruct t1 as [|c2 t2].
    { simpl. rewrite H1, H2. simpl. now rewrite H1, H2. }
    simpl in Hlen. destruct (sp3 c0 c1 c2) eqn:H3.
    { simpl. rewrite H1, H2, H3. apply IH. lia. }
    simpl. rewrite H1, H2, H3. simpl. now rewrite H1, H2, H3.
Qed.

Lemma trimFront_idem (s : bytes) :
  Strings.trimFront sp1 sp2 sp3 (Strings.trimFront sp1 sp2 sp3 s)
  = Strings.trimFront sp1 sp2 sp3 s.
Proof. apply (@trimFront_idem_le (List.length s) s (le_n _)). Qed.

(** White space of one byte in front is dropped. *)
Lemma trimFront_skip (ws s : bytes) :
  forallb sp1 ws = true ->
  Strings.trimFront sp1 sp2 sp3 (ws ++ s)%list
  = Strings.trimFront sp1 sp2 sp3 s.
Proof.
  induction ws as [|c ws IH]; intros Hws; [reflexivity|].
  simpl in Hws. apply andb_true_iff in Hws. destruct Hws as (Hc & Hws).
  simpl. rewrite Hc. now apply IH.
Qed.

(** A first byte that starts no white space stops the trimming. *)
Lemma trimFront_stop (c0 : ascii) (t : bytes) :
  sp1 c0 = false -> (forall c1, sp2 c0 c1 = false) ->
  (forall c1 c2, sp3 c0 c1 c2 = false) ->
  Strings.trimFront sp1 sp2 sp3 (c0 :: t) = c0 :: t.
Proof.
  intros H1 H2 H3. simpl. rewrite H1.
  destruct t as [|c1 t]; [reflexivity|]. rewrite H2.
  destruct t as [|c2 t]; [reflexivity|]. now rewrite H3.
Qed.

End TrimFront.

Lemma list_ascii_of_string_app (a b : string) :
  list_ascii_of_string (a ++ b)
  = (list_ascii_of_string a ++ list_ascii_of_string b)%list.
Proof. induction a as [|c a IH]; simpl; [reflexivity | now rewrite IH]. Qed.

Lemma ascii_solid_front (c : ascii) :
  ascii_solid c = true ->
  Unicode.space (Unicode.rune1 c) = false
  /\ (forall c1, Unicode.space (Unicode.rune2 c c1) = false)
  /\ (forall c1 c2, Unicode.space (Unicode.rune3 c c1 c2) = false).
Proof.
  unfold ascii_solid, Unicode.rune1, Unicode.rune2, Unicode.rune3,
    Unicode.between.
  intros H. apply andb_true_iff in H. destruct H as (Hlt & Hsp).
  apply negb_true_iff in Hsp. rewrite Hlt. apply N.ltb_lt in Hlt.
  repeat split; simpl; auto; intros.
  - replace (0xC2 <=? Unicode.byte c)%N with false
      by (symmetry; apply N.leb_gt; lia).
    reflexivity.
  - replace (0xE0 <=? Unicode.byte c)%N with false
      by (symmetry; apply N.leb_gt; lia).
    reflexivity.
Qed.

Lemma ascii_solid_back (c : ascii) :
  ascii_solid c = true ->
  Unicode.space (Unicode.rune1 c) = false
  /\ (forall c1, Unicode.space (Unicode.rune2 c1 c) = false)
  /\ (forall c1 c2, Unicode.space (Unicode.rune3 c2 c1 c) = false).
Proof.
  unfold ascii_solid, Unicode.rune1, Unicode.rune2, Unicode.rune3,
    Unicode.between.
  intros H. apply andb_true_iff in H. destruct H as (Hlt & Hsp).
  apply negb_true_iff in Hsp. rewrite Hlt. apply N.ltb_lt in Hlt.
  assert ((0x80 <=? Unicode.byte c)%N = false) as Hcont
      by (apply N.leb_gt; lia).
  repeat split; simpl; auto; intros; rewrite Hcont;
    rewrite ?andb_false_r; reflexivity.
Qed.

Lemma forallb_reversed (A : Type) (f : A -> bool) (l : list A) :
  forallb f (rev l) = forallb f l.
Proof.
  induction l as [|a l IH]; [reflexivity|]. simpl.
  rewrite forallb_app, IH. simpl. rewrite andb_true_r. apply andb_comm.
Qed.

(** A text with ASCII white space around it, itself starting and ending
    with ASCII bytes that are not white space, is trimmed to itself. *)
Lemma TrimSpace_ascii_around (ws1 s ws2 : string) :
  blank ws1 = true -> blank ws2 = true -> solid_ends s = true ->
  Strings.TrimSpace (ws1 ++ s ++ ws2) = s.
Proof.
  unfold blank, solid_ends, ascii_space. intros Hw1 Hw2 Hs.
  unfold Strings.TrimSpace, Strings.TrimLeftSpace, Strings.TrimRightSpace.
  rewrite !list_ascii_of_string_app.
  rewrite <- (string_of_list_ascii_of_string s) at 2.
  destruct (list_ascii_of_string s) as [|c t] eqn:Hl; [discriminate|].
  apply andb_true_iff in Hs. destruct Hs as (Hc & Hd).
  rewrite trimFront_skip by exact Hw1.
  destruct (ascii_solid_front _ Hc) as (F1 & F2 & F3).
  rewrite <- app_comm_cons, trimFront_stop by auto.
  rewrite app_comm_cons, rev_app_distr.
  rewrite trimFront_skip by (now rewrite forallb_reversed).
  destruct (ascii_solid_back _ Hd) as (B1 & B2 & B3).
  destruct (@exists_last _ (c :: t) ltac:(discriminate)) as (l' & d & Heq).
  assert (last t c = d) as Hlast.
  { replace (last t c) with (last (c :: t) c) by (now destruct t).
    rewrite Heq. apply last_last. }
  rewrite Hlast in *. rewrite Heq, rev_app_distr.
  change (rev [d] ++ rev l')%list with (d :: rev l').
  rewrite trimFront_stop by auto.
  simpl rev. now rewrite rev_involutive.
Qed.

(** Trimming a trimmed text changes nothing: the trimmed text has no white
    space at either end. *)
Lemma TrimSpace_idem (s : string) :
  Strings.TrimSpace (Strings.TrimSpace s) = Strings.TrimSpace s.
Proof.
  unfold Strings.TrimSpace, Strings.TrimLeftSpace, Strings.TrimRightSpace.
  rewrite list_ascii_of_string_of_list_ascii.
  set (l := list_ascii_of_string s).
  set (F := Strings.trimFront (fun a => Unicode.space (Unicode.rune1 a))
              (fun a b => Unicode.space (Unicode.rune2 a b))
              (fun a b c => Unicode.space (Unicode.rune3 a b c))).
  set (B := Strings.trimFront (fun a => Unicode.space (Unicode.rune1 a))
              (fun b a => Unicode.space (Unicode.rune2 a b))
              (fun c b a => Unicode.space (Unicode.rune3 a b c))).
  assert (F (rev (B (rev (F l)))) = rev (B (rev (F l)))) as Hfront.
  { destruct (@trimFront_suffix (fun a => Unicode.space (Unicode.rune1 a))
                (fun b a => Unicode.space (Unicode.rune2 a b))
                (fun c b a => Unicode.space (Unicode.rune3 a b c))
                (List.length (rev (F l))) (rev (F l)) (le_n _))
      as (suf & Hsuf).
    fold B in Hsuf.
    apply trimFront_fixed_prefix with (q := rev suf).
    rewrite <- rev_app_distr, <- Hsuf, rev_involutive.
    apply trimFront_idem. }
  rewrite Hfront, rev_involutive. unfold B. now rewrite trimFront_idem.
Qed.

Lemma TrimSpace_of_blank (s : string) :
  blank s = true -> Strings.TrimSpace s = "".
Proof.
  unfold blank, ascii_space. intros Hs.
  unfold Strings.TrimSpace, Strings.TrimLeftSpace, Strings.TrimRightSpace.
  rewrite <- (app_nil_r (list_ascii_of_string s)).
  now rewrite trimFront_skip by exact Hs.
Qed.

(** X1: [fetchIP] returns the empty address exactly when it returns an
    error: every error comes with the empty string, and a success never
    carries an empty address. *)
Theorem fetchIP_empty_iff_error (net : Net) (url : string) :
  fst (fetchIP net url) = "" <-> snd (fetchIP net url) <> None.
Proof.
  unfold fetchIP.
  destruct (net url) as [e|e|[status [body [e|]]]]; simpl;
    try (split; [discriminate | reflexivity]).
  destruct (String.eqb_spec (Strings.TrimSpace body) ""); simpl.
  - split; [discriminate | reflexivity].
  - split; [contradiction | intros H; now elim H].
Qed.

(** X2: when the body is an address with only ASCII white space before and
    after it (a trailing newline, say), the address itself starting and
    ending with ASCII bytes that are not white space, [fetchIP] succeeds
    with exactly that address, whatever the status of the response. *)
Theorem fetchIP_ascii_padded (net : Net) (url : string) (status : Z)
  (ws1 s ws2 : string) :
  net url = respond status (ws1 ++ s ++ ws2) ->
  blank ws1 = true -> blank ws2 = true -> solid_ends s = true ->
  fetchIP net url = (s, None).
Proof.
  intros Hnet Hw1 Hw2 Hs.
  rewrite (fetchIP_responds _ _ Hnet), TrimSpace_ascii_around by assumption.
  destruct (String.eqb_spec s "") as [-> |]; [discriminate | reflexivity].
Qed.

Lemma fetchIP_ascii_padded_witness :
  fetchIP net_disagree checkip = ("203.0.113.5", None).
Proof.
  exact (@fetchIP_ascii_padded net_disagree checkip 200 "" "203.0.113.5" nl
           eq_refl eq_refl eq_refl eq_refl).
Defined.

(** X3: a body that is empty or made of ASCII white space only is a failed
    fetch, with the error that names the service. *)
Theorem fetchIP_blank_body (net : Net) (url : string) (status : Z)
  (body : string) :
  net url = respond status body -> blank body = true ->
  fetchIP net url = ("", Some ("received empty IP address from " ++ url)).
Proof.
  intros Hnet Hblank.
  now rewrite (fetchIP_responds _ _ Hnet), TrimSpace_of_blank.
Qed.

Lemma fetchIP_blank_body_witness :
  fetchIP net_blank icanhazip
  = ("", Some ("received empty IP address from " ++ icanhazip)).
Proof.
  exact (@fetchIP_blank_body net_blank icanhazip 200 (" " ++ nl)
           eq_refl eq_refl).
Defined.

Lemma fetchIP_ok_stable (net : Net) (url a : string) :
  fetchIP net url = (a, None) -> a <> "" /\ Strings.TrimSpace a = a.
Proof.
  intros H. destruct (fetchIP_ok_inv _ _ H) as (status & body & _ & -> & Hne).
  split; [exact Hne | apply TrimSpace_idem].
Qed.

(** ** More on getPublicIP *)

(** What [getPublicIP] decides in each order of arrival, by which services
    succeeded. *)
Lemma arriving_cases (net : Net) :
  match fetchIP net checkip, fetchIP net icanhazip with
  | (a, None), (b, None) =>
      getPublicIP_arriving net [checkip; icanhazip] = decide [a; b]
      /\ getPublicIP_arriving net [icanhazip; checkip] = decide [b; a]
  | (a, None), (_, Some _) =>
      getPublicIP_arriving net [checkip; icanhazip] = ([], (a, None))
      /\ getPublicIP_arriving net [icanhazip; checkip] = ([], (a, None))
  | (_, Some _), (b, None) =>
      getPublicIP_arriving net [checkip; icanhazip] = ([], (b, None))
      /\ getPublicIP_arriving net [icanhazip; checkip] = ([], (b, None))
  | (_, Some _), (_, Some _) =>
      getPublicIP_arriving net [checkip; icanhazip] = ([], all_failed)
      /\ getPublicIP_arriving net [icanhazip; checkip] = ([], all_failed)
  end.
Proof.
  unfold getPublicIP_arriving. simpl map. rewrite !fetched_fetchIP.
  rewrite !collect_filter.
  destruct (fetchIP net checkip) as [a [ea|]],
    (fetchIP net icanhazip) as [b [eb|]]; simpl; split; reflexivity.
Qed.

(** X4: the interleavings of [getPublicIP] amount to the two orders in
    which the services' values can reach the channel: what it logs and
    returns is what the receiving loop and the decision give on the values
    in one of these two orders, and each order is that of some
    interleaving. *)
Theorem getPublicIP_two_orders (net : Net)
  (out : list string * (string * option error)) :
  getPublicIP net out
  <-> out = getPublicIP_arriving net [checkip; icanhazip]
      \/ out = getPublicIP_arriving net [icanhazip; checkip].
Proof.
  split; [apply getPublicIP_arriving_inv|].
  intros [-> | ->]; apply arriving_getPublicIP;
    [reflexivity | apply perm_swap].
Qed.

(** X5: [getPublicIP] returns an error exactly when both services failed,
    and then it returns the empty address with the error that all services
    failed, the services' own errors being dropped, and logs nothing. *)
Theorem getPublicIP_fails_iff_all_fail (net : Net)
  (out : list string * (string * option error)) :
  getPublicIP net out ->
  (snd (snd out) <> None
   <-> forall url, In url services -> snd (fetchIP net url) <> None)
  /\ (snd (snd out) <> None -> out = ([], all_failed)).
Proof.
  intros Hout. pose proof (arriving_cases net) as Hcases.
  assert ((forall url, In url services -> snd (fetchIP net url) <> None)
          <-> snd (fetchIP net checkip) <> None
              /\ snd (fetchIP net icanhazip) <> None) as Hall.
  { split.
    - intros H. split; apply H; simpl; auto.
    - intros (Ha & Hb) url [<- | [<- | []]]; assumption. }
  rewrite Hall. clear Hall.
  destruct (getPublicIP_arriving_inv Hout) as [-> | ->];
    destruct (fetchIP net checkip) as [a [ea|]],
      (fetchIP net icanhazip) as [b [eb|]];
    destruct Hcases as (H1 & H2); rewrite ?H1, ?H2; simpl;
    (split; [split; [intros H; try (now elim H); split; discriminate
                    | intros (Ha & Hb); try (now elim Ha); try (now elim Hb);
                      discriminate]
            | intros H; try (now elim H); reflexivity]).
Qed.

Lemma getPublicIP_fails_iff_all_fail_witness :
  snd (snd (@nil string, all_failed)) <> None
  <-> forall url, In url services -> snd (fetchIP net_down url) <> None.
Proof.
  assert (getPublicIP net_down ([], all_failed)) as Hout
      by (apply (@arriving_getPublicIP net_down [checkip; icanhazip]);
          reflexivity).
  exact (proj1 (@getPublicIP_fails_iff_all_fail net_down _ Hout)).
Defined.

Lemma decide_two_logs (a b : string) :
  (fst (decide [a; b]) <> [] <-> a <> b)
  /\ List.length (fst (decide [a; b])) <= 1.
Proof.
  unfold decide. simpl. destruct (String.eqb_spec a b); simpl.
  - split; [|lia]. split; [intros H; now elim H | intros H; now elim H].
  - split; [|lia]. split; [auto | discriminate].
Qed.

(** X6: [getPublicIP] logs at most one line, and it logs one exactly when
    both services succeeded with different addresses. *)
Theorem getPublicIP_warns_iff_mismatch (net : Net)
  (out : list string * (string * option error)) :
  getPublicIP net out ->
  (fst out <> []
   <-> exists a b, fetchIP net checkip = (a, None)
                   /\ fetchIP net icanhazip = (b, None) /\ a <> b)
  /\ List.length (fst out) <= 1.
Proof.
  intros Hout. pose proof (arriving_cases net) as Hcases.
  destruct (fetchIP net checkip) as [a [ea|]],
    (fetchIP net icanhazip) as [b [eb|]];
    destruct Hcases as (H1 & H2);
    destruct (getPublicIP_arriving_inv Hout) as [-> | ->];
    rewrite ?H1, ?H2;
    try (simpl; split; [|lia];
         split; [intros H; now elim H
                | intros (a' & b' & Ha & Hb & _); discriminate]).
  - destruct (decide_two_logs a b) as (Hiff & Hlen). split; [|exact Hlen].
    rewrite Hiff. split.
    + intros Hab. exists a, b. auto.
    + intros (a' & b' & Ha & Hb & Hab). congruence.
  - destruct (decide_two_logs b a) as (Hiff & Hlen). split; [|exact Hlen].
    rewrite Hiff. split.
    + intros Hab. exists a, b. repeat split; congruence.
    + intros (a' & b' & Ha & Hb & Hab). congruence.
Qed.

Lemma getPublicIP_warns_iff_mismatch_witness :
  fst ([mismatch_warning "203.0.113.9" "203.0.113.5"],
       ("203.0.113.9", @None error)) <> []
  <-> exists a b, fetchIP net_disagree checkip = (a, None)
                  /\ fetchIP net_disagree icanhazip = (b, None) /\ a <> b.
Proof.
  assert (getPublicIP net_disagree
            ([mismatch_warning "203.0.113.9" "203.0.113.5"],
             ("203.0.113.9", None))) as Hout
      by (apply (@arriving_getPublicIP net_disagree [icanhazip; checkip]);
          apply perm_swap).
  exact (proj1 (@getPublicIP_warns_iff_mismatch net_disagree _ Hout)).
Defined.

(** X7: what [getPublicIP] logs and returns does not depend on the
    interleaving, unless both services succeeded with different
    addresses. *)
Theorem getPublicIP_order_matters_only_on_mismatch (net : Net)
  (out1 out2 : list string * (string * option error)) :
  getPublicIP net out1 -> getPublicIP net out2 ->
  out1 = out2
  \/ exists a b, fetchIP net checkip = (a, None)
                 /\ fetchIP net icanhazip = (b, None) /\ a <> b.
Proof.
  intros Hout1 Hout2. pose proof (arriving_cases net) as Hcases.
  destruct (fetchIP net checkip) as [a [ea|]],
    (fetchIP net icanhazip) as [b [eb|]];
    destruct Hcases as (H1 & H2);
    destruct (getPublicIP_arriving_inv Hout1) as [-> | ->];
    destruct (getPublicIP_arriving_inv Hout2) as [-> | ->];
    rewrite ?H1, ?H2; auto.
  - destruct (String.eqb_spec a b) as [-> | Hab]; [now left|].
    right. exists a, b. auto.
  - destruct (String.eqb_spec a b) as [-> | Hab]; [now left|].
    right. exists a, b. auto.
Qed.

Lemma getPublicIP_order_matters_only_on_mismatch_witness :
  (@nil string, ("203.0.113.5", @None error)) = ([], ("203.0.113.5", None))
  \/ exists a b, fetchIP net_second checkip = (a, None)
                 /\ fetchIP net_second icanhazip = (b, None) /\ a <> b.
Proof.
  assert (getPublicIP net_second ([], ("203.0.113.5", None))) as Hout1
      by (apply (@arriving_getPublicIP net_second [checkip; icanhazip]);
          reflexivity).
  assert (getPublicIP net_second ([], ("203.0.113.5", None))) as Hout2
      by (apply (@arriving_getPublicIP net_second [icanhazip; checkip]);
          apply perm_swap).
  exact (@getPublicIP_order_matters_only_on_mismatch net_second _ _
           Hout1 Hout2).
Defined.

(** X8: an address that [getPublicIP] returns without error is not empty
    and has no white space at either end: trimming it again gives the same
    text. *)
Theorem getPublicIP_address_trimmed (net : Net) (lg : list string)
  (a : string) :
  getPublicIP net (lg, (a, None)) ->
  a <> "" /\ Strings.TrimSpace a = a.
Proof.
  intros Hout. pose proof (arriving_cases net) as Hcases.
  destruct (fetchIP net checkip) as [x [ex|]] eqn:Hx,
    (fetchIP net icanhazip) as [y [ey|]] eqn:Hy;
    destruct Hcases as (H1 & H2);
    destruct (getPublicIP_arriving_inv Hout) as [Heq | Heq];
    rewrite ?H1, ?H2 in Heq; try discriminate;
    unfold decide in Heq; simpl in Heq; inversion Heq; subst;
    eauto using fetchIP_ok_stable.
Qed.

Lemma getPublicIP_address_trimmed_witness :
  "203.0.113.5" <> "" /\ Strings.TrimSpace "203.0.113.5" = "203.0.113.5".
Proof.
  assert (getPublicIP net_second ([], ("203.0.113.5", None))) as Hout
      by (apply (@arriving_getPublicIP net_second [checkip; icanhazip]);
          reflexivity).
  exact (@getPublicIP_address_trimmed net_second [] "203.0.113.5" Hout).
Defined.

(** X9: while a call of [getPublicIP] goes on, each service's value is in
    exactly one place: the values received, those on the channel and those
    of the goroutines still to send or to start are, together, the values
    of the services, each once. So the channel, made for [len(services)]
    values, is never full when a goroutine is to send: no goroutine ever
    blocks. *)
Theorem channel_never_full (net : Net) (svcs : list string) (s : state) :
  reachable net svcs s ->
  Permutation (map (fetched net) svcs)
    (received s ++ results s
     ++ map (fetched net) (running s ++ spawning s))%list
  /\ List.length (received s) + List.length (results s)
     + List.length (running s) + List.length (spawning s) = List.length svcs
  /\ (running s <> [] -> List.length (results s) < List.length svcs).
Proof.
  intros Hreach. destruct (inv_reachable Hreach) as (Hperm & _).
  split; [exact Hperm|].
  apply Permutation_length in Hperm.
  rewrite length_map, !length_app, length_map, length_app in Hperm.
  split; [lia|]. intros Hrun.
  destruct (running s); [contradiction | simpl in Hperm; lia].
Qed.

Lemma reachable_one_sent : reachable net_disagree services one_sent.
Proof.
  unfold reachable, init, services. simpl.
  econstructor 2; [apply step_go|]. simpl.
  econstructor 2; [apply step_go|]. simpl.
  econstructor 2;
    [apply (@step_send net_disagree [checkip; icanhazip] [] [checkip]
              icanhazip []); simpl; lia|].
  constructor.
Qed.

Lemma channel_never_full_witness :
  Permutation (map (fetched net_disagree) services)
    (received one_sent ++ results one_sent
     ++ map (fetched net_disagree) (running one_sent ++ spawning one_sent))%list
  /\ List.length (results one_sent) < List.length services.
Proof.
  assert (running one_sent <> []) as Hrun by discriminate.
  destruct (@channel_never_full net_disagree services one_sent
              reachable_one_sent) as (Hperm & _ & Hfree).
  exact (conj Hperm (Hfree Hrun)).
Defined.

(** ** More on main *)

Lemma filter_call_logs (lg : list string) :
  filter is_call (map Log lg) = [] /\ filter is_fatal (map Log lg) = []
  /\ filter is_updated_print (map Log lg) = []
  /\ existsb is_update (map Log lg) = false.
Proof. induction lg as [|l lg (H1 & H2 & H3 & H4)]; simpl; auto. Qed.

Lemma main_calls_firstn (cfg : Config) (cf : Cloudflare)
  (resolved : list string * (string * option error)) :
  filter is_call (fst (main cfg cf resolved []))
  = firstn (calls_made cfg cf resolved) (call_sequence cfg cf resolved).
Proof.
  unfold calls_made, call_sequence, record_in, records_in, zone_in.
  rewrite main_eq.
  destruct (NewWithAPIToken cf (apiToken cfg)) as [e|]; [reflexivity|].
  destruct (ZoneIDByName cf (zoneName cfg)) as [zoneID [e|]]; [reflexivity|].
  cbn [fst snd is_some]. cbv zeta.
  destruct (filter_call_logs (fst resolved)) as (Hlogs & _).
  destruct resolved as [lg [ip [e|]]]; cbn [fst snd is_some] in *.
  { cbn [fst]. rewrite !filter_app, Hlogs. reflexivity. }
  destruct (ListDNSRecords cf (zone_of zoneID) (list_params cfg))
    as [[records info] [e|]]; cbn [fst snd is_some orb].
  { cbn [fst]. rewrite !filter_app, Hlogs. reflexivity. }
  rewrite reconcile_eq.
  destruct records as [|record rest]; cbn [List.length Nat.eqb orb nth].
  { cbn [fst]. rewrite !filter_app, Hlogs. reflexivity. }
  destruct (String.eqb (DNSRecord.Content record) ip).
  { cbn [fst]. rewrite !filter_app, Hlogs. reflexivity. }
  cbv zeta.
  destruct (snd (UpdateDNSRecord cf _ _)); cbn [fst];
    rewrite !filter_app, Hlogs; reflexivity.
Qed.

(** X10: [main] makes its calls in one fixed order, each at most once:
    the client, the zone identifier, the public address, the listing, the
    update. It stops after the first failure, after a listing without
    records, and after a listing whose first record already holds the
    address; the listing and the update name the zone that the zone lookup
    returned, and the update is the one of the first record listed, sent
    without its identifier. *)
Theorem main_calls_in_order (cfg : Config) (cf : Cloudflare)
  (resolved : list string * (string * option error)) :
  filter is_call (fst (main cfg cf resolved []))
  = firstn (calls_made cfg cf resolved) (call_sequence cfg cf resolved).
Proof. apply main_calls_firstn. Qed.

(** X11: [main] ends well exactly when the client is made, the zone is
    found, the address is resolved, the listing succeeds with at least one
    record, and the first record either holds the address already or is
    updated without error. In every other run the process exits with a
    failure status. *)
Theorem main_succeeds_iff (cfg : Config) (cf : Cloudflare)
  (resolved : list string * (string * option error)) :
  succeeded (snd (main cfg cf resolved [])) = true
  <-> NewWithAPIToken cf (apiToken cfg) = None
      /\ snd (ZoneIDByName cf (zoneName cfg)) = None
      /\ snd (snd resolved) = None
      /\ snd (ListDNSRecords cf (zone_in cfg cf) (list_params cfg)) = None
      /\ records_in cfg cf <> []
      /\ (DNSRecord.Content (record_in cfg cf) = fst (snd resolved)
          \/ snd (UpdateDNSRecord cf (zone_in cfg cf)
                    (update_params (record_in cfg cf) (fst (snd resolved))))
             = None).
Proof.
  unfold record_in, records_in, zone_in. rewrite main_eq.
  destruct (NewWithAPIToken cf (apiToken cfg)) as [e|];
    [simpl; split; [discriminate | intros (H & _); discriminate]|].
  destruct (ZoneIDByName cf (zoneName cfg)) as [zoneID [e|]];
    [simpl; split; [discriminate | intros (_ & H & _); discriminate]|].
  destruct resolved as [lg [ip [e|]]];
    [simpl; split; [discriminate | intros (_ & _ & H & _); discriminate]|].
  cbn [fst snd]. cbv zeta.
  destruct (ListDNSRecords cf (zone_of zoneID) (list_params cfg))
    as [[records info] [e|]];
    [simpl; split;
     [discriminate | intros (_ & _ & _ & H & _); discriminate]|].
  rewrite reconcile_eq. cbn [fst snd].
  destruct records as [|record rest];
    [simpl; split;
     [discriminate | intros (_ & _ & _ & _ & H & _); now elim H]|].
  cbn [nth].
  destruct (String.eqb_spec (DNSRecord.Content record) ip) as [Heq | Hne].
  { simpl. split; [|reflexivity]. intros _. repeat split; auto.
    discriminate. }
  cbv zeta.
  destruct (snd (UpdateDNSRecord cf _ _)) as [e|]; simpl.
  - split; [discriminate|].
    intros (_ & _ & _ & _ & _ & [H | H]); [contradiction | discriminate].
  - split; [|reflexivity]. intros _. repeat split; auto. discriminate.
Qed.

(** X12: the only failure status [main] exits with is 1, and it does so
    exactly after logging one fatal message, which is the last thing the
    run does; a run that ends well logs no fatal message. *)
Theorem main_exit_discipline (cfg : Config) (cf : Cloudflare)
  (resolved : list string * (string * option error)) :
  match snd (main cfg cf resolved []) with
  | Exit code =>
      code = 1%Z
      /\ exists t msg,
           fst (main cfg cf resolved []) = (t ++ [LogFatal msg])%list
           /\ filter is_fatal t = []
  | _ => filter is_fatal (fst (main cfg cf resolved [])) = []
  end.
Proof.
  rewrite main_eq.
  destruct (filter_call_logs (fst resolved)) as (_ & Hlogs & _).
  destruct (NewWithAPIToken cf (apiToken cfg)) as [e|].
  { cbv zeta. cbn [fst snd]. split; [reflexivity|]. eexists _, _.
    split; reflexivity. }
  destruct (ZoneIDByName cf (zoneName cfg)) as [zoneID [e|]].
  { cbv zeta. cbn [fst snd]. split; [reflexivity|]. eexists _, _.
    split; reflexivity. }
  cbv zeta. destruct (snd resolved) as [ip [e|]].
  { cbn [fst snd]. split; [reflexivity|]. eexists _, _.
    split; [reflexivity|]. rewrite !filter_app, Hlogs. reflexivity. }
  destruct (ListDNSRecords cf (zone_of zoneID) (list_params cfg))
    as [[records info] [e|]].
  { cbn [fst snd]. split; [reflexivity|]. eexists _, _.
    split; [reflexivity|]. rewrite !filter_app, Hlogs. reflexivity. }
  rewrite reconcile_eq.
  destruct records as [|record rest].
  { cbn [fst snd]. split; [reflexivity|]. eexists _, _.
    split; [reflexivity|]. rewrite !filter_app, Hlogs. reflexivity. }
  destruct (String.eqb (DNSRecord.Content record) ip).
  { cbn [fst snd]. rewrite !filter_app, Hlogs. reflexivity. }
  cbv zeta. destruct (snd (UpdateDNSRecord cf _ _)) as [e|]; cbn [fst snd].
  - split; [reflexivity|]. eexists _, _.
    split; [reflexivity|]. rewrite !filter_app, Hlogs. reflexivity.
  - rewrite !filter_app, Hlogs. reflexivity.
Qed.

Lemma filter_updated_message (cfg : Config) (ip : string) :
  filter is_updated_print [Print (updated_message cfg ip)]
  = [Print (updated_message cfg ip)].
Proof.
  assert (forall s, String.prefix "" s = true) as Hempty
      by (intros s; now destruct s).
  unfold updated_message. simpl. now rewrite Hempty.
Qed.

(** X13: the line that reports a successful update is printed twice in a
    run that updates the record without error, and in no other run: not
    when the record already holds the address, and not when anything
    fails. *)
Theorem updated_message_printed (cfg : Config) (cf : Cloudflare)
  (resolved : list string * (string * option error)) :
  filter is_updated_print (fst (main cfg cf resolved []))
  = if succeeded (snd (main cfg cf resolved []))
       && existsb is_update (fst (main cfg cf resolved []))
    then [Print (updated_message cfg (fst (snd resolved)));
          Print (updated_message cfg (fst (snd resolved)))]
    else [].
Proof.
  rewrite main_eq.
  destruct (filter_call_logs (fst resolved)) as (_ & _ & Hlogs & Hupd).
  destruct (NewWithAPIToken cf (apiToken cfg)) as [e|]; [reflexivity|].
  destruct (ZoneIDByName cf (zoneName cfg)) as [zoneID [e|]]; [reflexivity|].
  cbv zeta. destruct resolved as [lg [ip [e|]]]; cbn [fst snd] in *.
  { rewrite !filter_app, Hlogs. reflexivity. }
  destruct (ListDNSRecords cf (zone_of zoneID) (list_params cfg))
    as [[records info] [e|]]; cbn [fst snd].
  { rewrite !filter_app, Hlogs. reflexivity. }
  rewrite reconcile_eq.
  destruct records as [|record rest]; cbn [fst snd].
  { rewrite !filter_app, Hlogs. reflexivity. }
  destruct (String.eqb (DNSRecord.Content record) ip); cbn [fst snd].
  { rewrite !filter_app, !existsb_app, Hlogs, Hupd. reflexivity. }
  cbv zeta. destruct (snd (UpdateDNSRecord cf _ _)) as [e|]; cbn [fst snd].
  - rewrite !filter_app, Hlogs. reflexivity.
  - rewrite !filter_app, !existsb_app, Hlogs, Hupd, filter_updated_message.
    reflexivity.
Qed.

Lemma main_calls_head (cfg : Config) (cf : Cloudflare)
  (resolved : list string * (string * option error)) :
  exists rest,
    filter is_call (fst (main cfg cf resolved []))
    = CallNewWithAPIToken (apiToken cfg) :: rest.
Proof.
  rewrite main_calls_firstn. unfold calls_made, call_sequence.
  repeat match goal with
         | |- context [if ?b then _ else _] => destruct b
         end; simpl; eauto.
Qed.

(** X14: when the listing succeeds and has no record in it, [main] logs
    that no A record was found and exits with status 1: it never creates
    a record, and makes no update call. *)
Theorem no_record_is_fatal (cfg : Config) (cf : Cloudflare)
  (resolved : list string * (string * option error)) (zoneID ip : string)
  (info : ResultInfo) :
  NewWithAPIToken cf (apiToken cfg) = None ->
  ZoneIDByName cf (zoneName cfg) = (zoneID, None) ->
  snd resolved = (ip, None) ->
  ListDNSRecords cf (zone_of zoneID) (list_params cfg) = ([], info, None) ->
  main cfg cf resolved []
  = ((preamble cfg zoneID resolved info
      ++ [LogFatal ("No A records found for " ++ recordName cfg)])%list,
     Exit 1)
  /\ filter is_update (fst (main cfg cf resolved [])) = [].
Proof.
  intros Hnew Hzone Hip Hlist.
  rewrite (main_reconciles _ _ _ Hnew Hzone Hip Hlist), reconcile_eq.
  split; [reflexivity|]. cbn [fst].
  now rewrite filter_app, preamble_no_update.
Qed.

Lemma no_record_is_fatal_witness :
  main cfg0 cf_empty ([], ("203.0.113.5", None)) []
  = ((preamble cfg0 zone0 ([], ("203.0.113.5", None)) {| Total := 0 |}
      ++ [LogFatal ("No A records found for " ++ recordName cfg0)])%list,
     Exit 1).
Proof.
  exact (proj1 (@no_record_is_fatal cfg0 cf_empty ([], ("203.0.113.5", None))
                  zone0 "203.0.113.5" {| Total := 0 |}
                  eq_refl eq_refl eq_refl eq_refl)).
Defined.

(** ** init *)

Lemma require_eq (a z r : string) (t : list event) :
  require a z r t
  = if String.eqb a "" || String.eqb z "" || String.eqb r ""
    then ((t ++ missing_lines)%list, Exit 1)
    else (t, Next tt).
Proof.
  unfold require.
  destruct (String.eqb a "" || String.eqb z "" || String.eqb r "");
    [|reflexivity].
  unfold Println, Printf, bind, emit, exit, missing_lines.
  now rewrite <- !app_assoc.
Qed.

Lemma empty_check (a z r : string) :
  String.eqb a "" || String.eqb z "" || String.eqb r "" = false
  <-> a <> "" /\ z <> "" /\ r <> "".
Proof.
  destruct (String.eqb_spec a ""), (String.eqb_spec z ""),
    (String.eqb_spec r ""); simpl; split; try discriminate; try tauto.
Qed.

Lemma flags_init_eq (env : Flags.Env) :
  Flags.init env []
  = match Flags.Parse env with
    | Some code => ([], Exit code)
    | None =>
        if String.eqb (Flags.GetString env "api-token") ""
           || String.eqb (Flags.GetString env "zone-name") ""
           || String.eqb (Flags.GetString env "record-name") ""
        then (missing_lines, Exit 1)
        else if (List.length (Flags.Args env) <? 2)%nat
             then ([Log (Flags.Defaults env)], Exit 0)
             else ([], Next {| apiToken := Flags.GetString env "api-token";
                               zoneName := Flags.GetString env "zone-name";
                               recordName :=
                                 Flags.GetString env "record-name" |})
    end.
Proof.
  unfold Flags.init, parse. unfold bind at 1.
  destruct (Flags.Parse env); [reflexivity|]. cbn [ret].
  unfold bind at 1. rewrite require_eq.
  destruct (_ || _); [reflexivity|].
  destruct (_ <? _)%nat; reflexivity.
Qed.



(** X16: the variant configured by flags calls the provider, or anything
    else, only when the flags are parsed, the three values are not empty
    and at least one argument was given; it then runs [main] with the three
    values as found. In particular it never makes a client with an empty
    token, and with the values in the environment and no argument it
    updates nothing. *)
Theorem flags_program_calls (env : Flags.Env) (cf : Cloudflare)
  (resolved : list string * (string * option error)) :
  (filter is_call (fst (Flags.program env cf resolved [])) <> []
   <-> Flags.Parse env = None
       /\ Flags.GetString env "api-token" <> ""
       /\ Flags.GetString env "zone-name" <> ""
       /\ Flags.GetString env "record-name" <> ""
       /\ 2 <= List.length (Flags.Args env))
  /\ (filter is_call (fst (Flags.program env cf resolved [])) <> [] ->
      Flags.program env cf resolved []
      = main {| apiToken := Flags.GetString env "api-token";
                zoneName := Flags.GetString env "zone-name";
                recordName := Flags.GetString env "record-name" |}
             cf resolved []).
Proof.
  unfold Flags.program, bind. rewrite flags_init_eq.
  pose proof (empty_check (Flags.GetString env "api-token")
                (Flags.GetString env "zone-name")
                (Flags.GetString env "record-name")) as Hcheck.
  destruct (Flags.Parse env) as [code|].
  { simpl. split; [|intros H; now elim H].
    split; [intros H; now elim H | intros (H & _); discriminate]. }
  destruct (_ || _).
  { simpl. split; [|intros H; now elim H].
    split; [intros H; now elim H|].
    intros (_ & H1 & H2 & H3 & _).
    assert (true = false) by (apply Hcheck; auto). discriminate. }
  destruct (proj1 Hcheck eq_refl) as (H1 & H2 & H3).
  destruct (Nat.ltb_spec (List.length (Flags.Args env)) 2).
  { simpl. split; [|intros H'; now elim H'].
    split; [intros H'; now elim H' | intros (_ & _ & _ & _ & Hlen); lia]. }
  split; [|reflexivity].
  destruct (main_calls_head
              {| apiToken := Flags.GetString env "api-token";
                 zoneName := Flags.GetString env "zone-name";
                 recordName := Flags.GetString env "record-name" |}
              cf resolved) as (rest & Hcalls).
  rewrite Hcalls. split; [auto | discriminate].
Qed.

(** [retrieveVaultSecret] either finds the three strings or ends the
    process. *)
Lemma retrieve_cases (env : Vault.Env) :
  (exists a r z, Vault.stored a r z env
                 /\ Vault.retrieveVaultSecret env [] = ([], Next (a, r, z)))
  \/ (exists msg, Vault.retrieveVaultSecret env [] = ([LogFatal msg], Exit 1)
                  /\ forall a r z, ~ Vault.stored a r z env).
Proof.
  unfold Vault.retrieveVaultSecret, Vault.stored.
  destruct (Vault.NewClient env _) as [e|].
  { right. eexists. split; [reflexivity|]. intros a r z (H & _).
    discriminate. }
  unfold bind at 1. cbn [fatal_on ret].
  destruct (Vault.Read env _) as [secret [e|]].
  { right. eexists. split; [reflexivity|].
    intros a r z (_ & s' & d & H & _). discriminate. }
  unfold bind at 1. cbn [fatal_on ret].
  destruct secret as [secret|].
  2:{ right. eexists. split; [reflexivity|].
      intros a r z (_ & s' & d & H & _). discriminate. }
  destruct (Vault.lookup "data" (Vault.Data secret)) as [[x|secretData|]|]
    eqn:Hdata;
    try (right; eexists; split; [reflexivity|];
         intros a r z (_ & s' & d & H & H' & _); inversion H; subst;
         rewrite Hdata in H'; discriminate).
  destruct (Vault.lookup "api-token" secretData) as [[a|x|]|] eqn:Ha;
    try (right; eexists; split; [reflexivity|];
         intros a' r z (_ & s' & d & H & H' & H'' & _); inversion H; subst;
         rewrite Hdata in H'; inversion H'; subst;
         rewrite Ha in H''; discriminate).
  destruct (Vault.lookup "record-name" secretData) as [[r|x|]|] eqn:Hr;
    try (right; eexists; split; [reflexivity|];
         intros a' r' z (_ & s' & d & H & H' & _ & H'' & _); inversion H;
         subst; rewrite Hdata in H'; inversion H'; subst;
         rewrite Hr in H''; discriminate).
  destruct (Vault.lookup "zone-name" secretData) as [[z|x|]|] eqn:Hz;
    try (right; eexists; split; [reflexivity|];
         intros a' r' z' (_ & s' & d & H & H' & _ & _ & H''); inversion H;
         subst; rewrite Hdata in H'; inversion H'; subst;
         rewrite Hz in H''; discriminate).
  left. exists a, r, z. split; [|reflexivity].
  split; [reflexivity|]. exists secret, secretData. auto.
Qed.

Lemma stored_unique (env : Vault.Env) (a r z a' r' z' : string) :
  Vault.stored a r z env -> Vault.stored a' r' z' env ->
  a = a' /\ r = r' /\ z = z'.
Proof.
  intros (_ & s1 & d1 & R1 & D1 & A1 & N1 & Z1)
         (_ & s2 & d2 & R2 & D2 & A2 & N2 & Z2).
  rewrite R1 in R2. inversion R2. subst s2.
  rewrite D1 in D2. inversion D2. subst d2.
  rewrite A1 in A2. rewrite N1 in N2. rewrite Z1 in Z2.
  inversion A2. inversion N2. inversion Z2. auto.
Qed.

(** X17: [retrieveVaultSecret] returns three strings exactly when the
    client is made, the read succeeds and finds a secret, the secret has a
    map under [data], and that map has strings under [api-token],
    [record-name] and [zone-name]; what it returns is then these three
    strings, in this order. *)
Theorem retrieveVaultSecret_reads (env : Vault.Env) (a r z : string) :
  Vault.retrieveVaultSecret env [] = ([], Next (a, r, z))
  <-> Vault.stored a r z env.
Proof.
  destruct (retrieve_cases env)
    as [(a' & r' & z' & Hst & Heq) | (msg & Heq & Hno)]; rewrite Heq.
  - split.
    + intros H. inversion H. now subst.
    + intros H. destruct (stored_unique Hst H) as (-> & -> & ->).
      reflexivity.
  - split; [discriminate | intros H; now elim (Hno _ _ _ H)].
Qed.

(** X18: when the secret is not there as expected, in any way,
    [retrieveVaultSecret] logs one fatal message and the process exits with
    status 1: it never goes on with a part of the configuration. *)
Theorem retrieveVaultSecret_fatal (env : Vault.Env) :
  (forall a r z, ~ Vault.stored a r z env) ->
  exists msg, Vault.retrieveVaultSecret env [] = ([LogFatal msg], Exit 1).
Proof.
  intros Hno.
  destruct (retrieve_cases env)
    as [(a & r & z & Hst & _) | (msg & Heq & _)];
    [now elim (Hno _ _ _ Hst) | eauto].
Qed.

Lemma retrieveVaultSecret_fatal_witness :
  exists msg,
    Vault.retrieveVaultSecret vault_partial [] = ([LogFatal msg], Exit 1).
Proof.
  assert (forall a r z, ~ Vault.stored a r z vault_partial) as Hno.
  { intros a r z (_ & secret & secretData & Hread & Hdata & _ & _ & Hzone).
    inversion Hread. subst secret. inversion Hdata. subst secretData.
    discriminate. }
  exact (@retrieveVaultSecret_fatal vault_partial Hno).
Defined.

Lemma vault_init_eq (env : Vault.Env) :
  Vault.init env []
  = match Vault.Parse env with
    | Some code => ([], Exit code)
    | None =>
        match Vault.retrieveVaultSecret env [] with
        | (t, Next (a, r, z)) =>
            if String.eqb a "" || String.eqb z "" || String.eqb r ""
            then ((t ++ missing_lines)%list, Exit 1)
            else (t, Next {| apiToken := a; zoneName := z; recordName := r |})
        | (t, Return) => (t, Return)
        | (t, Exit code) => (t, Exit code)
        end
    end.
Proof.
  unfold Vault.init, parse. unfold bind at 1.
  destruct (Vault.Parse env); [reflexivity|]. cbn [ret].
  unfold bind at 1.
  destruct (Vault.retrieveVaultSecret env []) as [t [[[a r] z]| |code]];
    try reflexivity.
  unfold bind. rewrite require_eq.
  destruct (_ || _); reflexivity.
Qed.

(** X19: the variant configured from the secret store calls the provider,
    or anything else, only when the flags are parsed and the secret holds
    the three strings, none of them empty; it then runs [main] with the
    string under [api-token] as token, the one under [zone-name] as zone
    and the one under [record-name] as record name. *)
Theorem vault_program_calls (env : Vault.Env) (cf : Cloudflare)
  (resolved : list string * (string * option error)) :
  (filter is_call (fst (Vault.program env cf resolved [])) <> []
   <-> Vault.Parse env = None
       /\ exists a r z, Vault.stored a r z env
                        /\ a <> "" /\ z <> "" /\ r <> "")
  /\ (forall a r z,
        Vault.Parse env = None -> Vault.stored a r z env ->
        a <> "" -> z <> "" -> r <> "" ->
        Vault.program env cf resolved []
        = main {| apiToken := a; zoneName := z; recordName := r |}
               cf resolved []).
Proof.
  unfold Vault.program, bind. rewrite vault_init_eq.
  destruct (Vault.Parse env) as [code|].
  { simpl. split; [|discriminate].
    split; [intros H; now elim H | intros (H & _); discriminate]. }
  destruct (retrieve_cases env)
    as [(a & r & z & Hst & Heq) | (msg & Heq & Hno)]; rewrite Heq.
  2:{ simpl. split.
      - split; [intros H; now elim H|].
        intros (_ & a & r & z & Hst & _). now elim (Hno _ _ _ Hst).
      - intros a r z _ Hst. now elim (Hno _ _ _ Hst). }
  pose proof (empty_check a z r) as Hcheck.
  destruct (_ || _).
  { simpl. split.
    - split; [intros H; now elim H|].
      intros (_ & a' & r' & z' & Hst' & Ha & Hz & Hr).
      destruct (stored_unique Hst Hst') as (-> & -> & ->).
      assert (true = false) by (apply Hcheck; auto). discriminate.
    - intros a' r' z' _ Hst' Ha Hz Hr.
      destruct (stored_unique Hst Hst') as (-> & -> & ->).
      assert (true = false) by (apply Hcheck; auto). discriminate. }
  destruct (proj1 Hcheck eq_refl) as (Ha & Hz & Hr).
  split.
  - destruct (main_calls_head
                {| apiToken := a; zoneName := z; recordName := r |}
                cf resolved) as (rest & Hcalls).
    rewrite Hcalls. split; [|discriminate].
    intros _. split; [reflexivity|]. exists a, r, z. auto.
  - intros a' r' z' _ Hst' _ _ _.
    destruct (stored_unique Hst Hst') as (-> & -> & ->). reflexivity.
Qed.

(** ** From the services to the record *)

Lemma getPublicIP_ok_fetched (net : Net) (lg : list string) (a : string) :
  getPublicIP net (lg, (a, None)) ->
  exists url, In url services /\ fetchIP net url = (a, None).
Proof.
  intros Hout. pose proof (arriving_cases net) as Hcases.
  destruct (fetchIP net checkip) as [x [ex|]] eqn:Hx,
    (fetchIP net icanhazip) as [y [ey|]] eqn:Hy;
    destruct Hcases as (H1 & H2);
    destruct (getPublicIP_arriving_inv Hout) as [Heq | Heq];
    rewrite ?H1, ?H2 in Heq; try discriminate;
    unfold decide in Heq; simpl in Heq; inversion Heq; subst;
    solve [exists checkip; split; [now left | assumption]
          | exists icanhazip; split; [right; now left | assumption]].
Qed.

Lemma update_in_run (cfg : Config) (cf : Cloudflare)
  (resolved : list string * (string * option error))
  (rc : ResourceContainer) (p : UpdateDNSRecordParams.t) :
  In (CallUpdateDNSRecord rc p) (fst (main cfg cf resolved [])) ->
  snd (snd resolved) = None
  /\ UpdateDNSRecordParams.Content p = fst (snd resolved).
Proof.
  intros Hin.
  assert (In (CallUpdateDNSRecord rc p)
            (filter is_call (fst (main cfg cf resolved [])))) as Hcall
      by (apply filter_In; split; [exact Hin | reflexivity]).
  rewrite main_calls_firstn in Hcall.
  unfold calls_made, call_sequence in Hcall.
  destruct (is_some (NewWithAPIToken cf (apiToken cfg)));
    [simpl in Hcall; intuition discriminate|].
  destruct (is_some (snd (ZoneIDByName cf (zoneName cfg))));
    [simpl in Hcall; intuition discriminate|].
  destruct (snd (snd resolved)) as [e|];
    [simpl in Hcall; intuition discriminate|].
  cbn [is_some] in Hcall.
  destruct (_ || _); simpl in Hcall;
    destruct Hcall as [H | [H | [H | [H | H]]]]; try discriminate;
    try contradiction.
  destruct H as [H | []]. inversion H. subst. auto.
Qed.

(** X20: whenever a run of the program calls the update, the content it
    sends is an address that one of the configured services was fetched
    with in this run, without error: it is not empty and has no white
    space at either end. *)
Theorem update_writes_fetched_address (cfg : Config) (cf : Cloudflare)
  (net : Net) (out : list event * flow unit) (rc : ResourceContainer)
  (p : UpdateDNSRecordParams.t) :
  run cfg cf net out ->
  In (CallUpdateDNSRecord rc p) (fst out) ->
  exists url,
    In url services
    /\ fetchIP net url = (UpdateDNSRecordParams.Content p, None)
    /\ UpdateDNSRecordParams.Content p <> ""
    /\ Strings.TrimSpace (UpdateDNSRecordParams.Content p)
       = UpdateDNSRecordParams.Content p.
Proof.
  intros (resolved & Hget & ->) Hin.
  destruct (update_in_run _ _ _ _ _ Hin) as (Hok & Hcontent).
  destruct resolved as [lg [a e]]. simpl in Hok, Hcontent. subst e.
  destruct (getPublicIP_ok_fetched Hget) as (url & Hurl & Hfetch).
  rewrite Hcontent. exists url. repeat split; auto;
    apply (fetchIP_ok_stable _ _ Hfetch).
Qed.

Lemma update_writes_fetched_address_witness :
  exists url,
    In url services
    /\ fetchIP net_second url = ("203.0.113.5", None)
    /\ "203.0.113.5" <> ""
    /\ Strings.TrimSpace "203.0.113.5" = "203.0.113.5".
Proof.
  assert (run cfg0 cf0 net_second
            (main cfg0 cf0 ([], ("203.0.113.5", None)) [])) as Hrun.
  { exists ([], ("203.0.113.5", None)). split; [|reflexivity].
    apply (@arriving_getPublicIP net_second [checkip; icanhazip]).
    reflexivity. }
  assert (In (CallUpdateDNSRecord (zone_of zone0)
                (update_params record0 "203.0.113.5"))
             (fst (main cfg0 cf0 ([], ("203.0.113.5", None)) []))) as Hin.
  { vm_compute. do 6 right. left. reflexivity. }
  exact (@update_writes_fetched_address cfg0 cf0 net_second _ _ _ Hrun Hin).
Defined.

(** ** The two configurations on examples *)

Example flags0_configured :
  Flags.init flags0 []
  = ([], Next {| apiToken := "token"; zoneName := "example.com";
                 recordName := "home.example.com" |}).
Proof. reflexivity. Qed.

Example vault0_configured :
  Vault.init vault0 []
  = ([], Next {| apiToken := "token"; zoneName := "example.com";
                 recordName := "home.example.com" |}).
Proof. reflexivity. Qed.

Example vault_partial_fatal :
  Vault.init vault_partial []
  = ([LogFatal "zone-name not found or is not a string in the secret"],
     Exit 1).
Proof. reflexivity. Qed.
